(** * Bot.py: pinned multi-exchange OHLCV fetching and RSI cross detection

    A shallow embedding of [src/Bot.py].  The module-level dictionaries of
    the script ([pinned_exchange], [cooldown_until], [last_state],
    [perp_symbol_cache]) become the fields of one [state] record that every
    function threads explicitly.  What the script asks of the outside world
    (the ccxt exchange objects, the wall clock, the [ta] indicator, the
    Telegram sink) is gathered in an [Env] record of answers, and every
    outgoing call is appended to the [calls] log of the state. *)

From Stdlib Require Import PrimFloat Ascii.
From Stdlib Require SpecFloat FloatOps FloatAxioms.
From stdpp Require Import gmap strings list.

Open Scope Z_scope.

(** ** Strings: the three [str] methods the script uses *)

Module Str.

(** One character of [str.lower()], on the ASCII letters. *)
Definition lower_ascii (c : ascii) : ascii :=
  let n := nat_of_ascii c in
  if ((65 <=? n) && (n <=? 90))%nat then ascii_of_nat (n + 32) else c.

(** [s.lower()].  Bytes outside [A-Z] are kept: error texts are read as
    ASCII, where Python agrees. *)
Fixpoint lower (s : string) : string :=
  match s with
  | EmptyString => EmptyString
  | String c s' => String (lower_ascii c) (lower s')
  end.

(** [needle in s] on strings. *)
Fixpoint contains (needle s : string) : bool :=
  String.prefix needle s
  || match s with
     | EmptyString => false
     | String _ s' => contains needle s'
     end.

(** [s.split("/")]: the pieces between the slashes, at least one piece. *)
Fixpoint split_slash (s : string) : list string :=
  match s with
  | EmptyString => [EmptyString]
  | String c s' =>
      if Ascii.eqb c "/"%char then EmptyString :: split_slash s'
      else match split_slash s' with
           | piece :: pieces => String c piece :: pieces
           | [] => [String c EmptyString]
           end
  end.

End Str.

(** ** Python values held by a ccxt market dictionary *)

Inductive pyval :=
| PyNone
| PyBool (b : bool)
| PyInt (n : Z)
| PyStr (s : string).

(** Truth value of an object, as [not x] and [if x] take it. *)
Definition truthy (v : pyval) : bool :=
  match v with
  | PyNone => false
  | PyBool b => b
  | PyInt n => negb (n =? 0)
  | PyStr s => negb (String.eqb s "")
  end.

(** [v == s] for a [str] [s]. *)
Definition eq_str (v : pyval) (s : string) : bool :=
  match v with
  | PyStr s' => String.eqb s' s
  | _ => false
  end.

(** [v is True]. *)
Definition is_True (v : pyval) : bool :=
  match v with
  | PyBool true => true
  | _ => false
  end.

(** One value of [ex.markets].  [m["symbol"]] is the unified symbol, always
    a string in ccxt.  The other keys are read with [m.get(key)], which
    gives [None] for a missing key, so a missing key is [PyNone]; only
    ["active"] is read with a default, and keeps the difference between a
    missing key ([None] here) and a stored value. *)
Record market := Market {
  m_symbol : string;
  m_base : pyval;
  m_quote : pyval;
  m_active : option pyval;
  m_swap : pyval;
  m_type : pyval;
  m_linear : pyval;
}.

(** What [ex.load_markets()] leaves on the exchange object:
    [ex.markets.values()] in the provider's order, and [ex.symbols]. *)
Record catalog := Catalog {
  markets : list market;
  symbols : list string;
}.

(** One OHLCV row, [[t, o, h, l, c, v]]. *)
Record candle := Candle {
  c_t : Z;
  c_o : float;
  c_h : float;
  c_l : float;
  c_c : float;
  c_v : float;
}.

(** ** Exceptions *)

(** The exception classes the script tells apart.  A subclass of one of the
    listed ccxt classes stands as that class; everything else that can be
    raised inside the [try] is one of the last three. *)
Inductive exc_class :=
| NetworkError
| ExchangeNotAvailable
| DDoSProtection
| RateLimitExceeded
| RequestTimeout
| BadSymbol
| ExchangeError
| ValueError
| OtherException.

(** An exception caught by [except Exception as e]: its class, for
    [isinstance], and [str(e)]. *)
Record exc := Exc {
  exc_type : exc_class;
  exc_msg : string;
}.

(** What escapes [fetch_ohlcv_pinned] and [get_rsi]: the [RuntimeError]
    raised after the loop, with the three values its text is built from
    besides the call's own arguments, or the [IndexError] of [rsi.iloc]. *)
Inductive failure :=
| NoExchangeResponded (base_symbol timeframe : string)
                      (tried : list string) (last_err : option exc)
| IlocOutOfBounds.

(** ** Messages and outgoing calls *)

(** The texts handed to [send], by their interpolated values. *)
Inductive message :=
| MsgFailover (base_symbol timeframe prev_pin ex_name : string)
| MsgCrossBelow (market_symbol tf : string) (curr_rsi : float) (ex_name : string)
| MsgCrossAbove (market_symbol tf : string) (curr_rsi : float) (ex_name : string).

Inductive call :=
| LoadMarkets (ex : string)
| FetchOhlcv (ex market_symbol timeframe : string) (limit : nat)
| Send (msg : message)
| PrintError (tf : string) (e : failure).

(** The exchange a provider call goes to. *)
Definition call_exchange (c : call) : option string :=
  match c with
  | LoadMarkets ex => Some ex
  | FetchOhlcv ex _ _ _ => Some ex
  | Send _ => None
  | PrintError _ _ => None
  end.

(** ** Configuration, environment and state *)

Record Config := {
  RSI_LOW : float;
  RSI_HIGH : float;
  TIMEFRAMES : list string;
  SYMBOL : string;
  COOLDOWN_SECONDS : Z;
}.

(** The defaults of the [os.getenv] calls. *)
Definition default_config : Config :=
  {| RSI_LOW := 30%float;
     RSI_HIGH := 70%float;
     TIMEFRAMES := ["5m"; "15m"; "1h"]%string;
     SYMBOL := "BTC/USDT"%string;
     COOLDOWN_SECONDS := 120 |}.

(** Fixed priority. *)
Definition EXCHANGES : list string := ["bybit"; "kucoin"; "okx"]%string.

(** The answers of the outside world.  [time_time n] is what the [n]-th
    reading of [time.time()] returns.  The script only adds a duration to a
    reading and compares two of them with [>=]; readings are never NaN, so
    they are taken in [Z], as a number of clock ticks, and
    [COOLDOWN_SECONDS] in the same unit.  [load_markets] and [fetch_ohlcv]
    are the two ccxt methods, raising or returning; within one fetch every
    exchange is asked at most once, so one answer per exchange and request
    is all a run can observe.  [rsi_series window closes] is
    [RSIIndicator(closes, window).rsi()], third-party code. *)
Record Env := {
  time_time : nat → Z;
  load_markets : string → exc + catalog;
  fetch_ohlcv : string → string → string → nat → exc + list candle;
  rsi_series : nat → list float → list float;
}.

Record state := State {
  pinned_exchange : gmap (string * string) string;
  cooldown_until : gmap string Z;
  last_state : gmap string float;
  perp_symbol_cache : gmap (string * string) string;
  clock_reads : nat;
  calls : list call;
}.

(** The dictionaries as the module creates them. *)
Definition initial_state : state :=
  {| pinned_exchange := ∅;
     cooldown_until := list_to_map ((λ ex, (ex, 0)) <$> EXCHANGES);
     last_state := ∅;
     perp_symbol_cache := ∅;
     clock_reads := 0;
     calls := [] |}.

Definition set_pinned_exchange (f : gmap (string * string) string → gmap (string * string) string)
    (st : state) : state :=
  {| pinned_exchange := f (pinned_exchange st);
     cooldown_until := cooldown_until st;
     last_state := last_state st;
     perp_symbol_cache := perp_symbol_cache st;
     clock_reads := clock_reads st;
     calls := calls st |}.

Definition set_cooldown_until (f : gmap string Z → gmap string Z) (st : state) : state :=
  {| pinned_exchange := pinned_exchange st;
     cooldown_until := f (cooldown_until st);
     last_state := last_state st;
     perp_symbol_cache := perp_symbol_cache st;
     clock_reads := clock_reads st;
     calls := calls st |}.

Definition set_last_state (f : gmap string float → gmap string float) (st : state) : state :=
  {| pinned_exchange := pinned_exchange st;
     cooldown_until := cooldown_until st;
     last_state := f (last_state st);
     perp_symbol_cache := perp_symbol_cache st;
     clock_reads := clock_reads st;
     calls := calls st |}.

Definition set_perp_symbol_cache
    (f : gmap (string * string) string → gmap (string * string) string)
    (st : state) : state :=
  {| pinned_exchange := pinned_exchange st;
     cooldown_until := cooldown_until st;
     last_state := last_state st;
     perp_symbol_cache := f (perp_symbol_cache st);
     clock_reads := clock_reads st;
     calls := calls st |}.

(** An outgoing call, appended to the log. *)
Definition record_call (c : call) (st : state) : state :=
  {| pinned_exchange := pinned_exchange st;
     cooldown_until := cooldown_until st;
     last_state := last_state st;
     perp_symbol_cache := perp_symbol_cache st;
     clock_reads := clock_reads st;
     calls := calls st ++ [c] |}.

(** [time.time()]: the next reading of the clock. *)
Definition read_clock (env : Env) (st : state) : Z * state :=
  (time_time env (clock_reads st),
   {| pinned_exchange := pinned_exchange st;
      cooldown_until := cooldown_until st;
      last_state := last_state st;
      perp_symbol_cache := perp_symbol_cache st;
      clock_reads := S (clock_reads st);
      calls := calls st |}).

(** [send(msg)]: the post is attempted and its own failure is swallowed. *)
Definition send (msg : message) (st : state) : state := record_call (Send msg) st.

(** The script builds [exchanges[name]] with [getattr(ccxt, name)]; the
    [id] of such an object is the name of its class. *)
Definition ex_id (ex_name : string) : string := ex_name.

(** ** [is_recoverable] *)

Definition isinstance_recoverable (c : exc_class) : bool :=
  match c with
  | NetworkError | ExchangeNotAvailable | DDoSProtection
  | RateLimitExceeded | RequestTimeout => true
  | _ => false
  end.

Definition isinstance_BadSymbol (c : exc_class) : bool :=
  match c with
  | BadSymbol => true
  | _ => false
  end.

Definition is_recoverable (e : exc) : bool :=
  if isinstance_recoverable (exc_type e) then true
  else
    let msg := Str.lower (exc_msg e) in
    if Str.contains "restricted" msg || Str.contains "forbidden" msg
       || Str.contains "403" msg
    then true
    else false.

(** ** [find_perp_market_symbol] *)

(** The [for m in ex.markets.values()] loop with its two [continue]s; the
    markets appended to [candidates], in the order they were met. *)
Fixpoint swap_candidates (base quote : string) (ms : list market) : list market :=
  match ms with
  | [] => []
  | m :: ms' =>
      if negb (truthy (default (PyBool true) (m_active m))) then
        swap_candidates base quote ms'
      else if negb (eq_str (m_base m) base) || negb (eq_str (m_quote m) quote) then
        swap_candidates base quote ms'
      else if is_True (m_swap m) || eq_str (m_type m) "swap" then
        m :: swap_candidates base quote ms'
      else
        swap_candidates base quote ms'
  end.

(** [[m for m in candidates if m.get("linear") is True]]. *)
Definition linear_of (candidates : list market) : list market :=
  List.filter (λ m, is_True (m_linear m)) candidates.

Definition not_found (base_symbol ex : string) : exc :=
  Exc BadSymbol ("Perp " +:+ base_symbol +:+ " não encontrado em " +:+ ex).

(** What the function does with the loaded catalog, from the
    [base, quote = base_symbol.split("/")] line on: the value to cache and
    return, or the exception. *)
Definition choose_market (cat : catalog) (base_symbol ex : string) : exc + string :=
  match Str.split_slash base_symbol with
  | [base; quote] =>
      match swap_candidates base quote (markets cat) with
      | [] =>
          if bool_decide (base_symbol ∈ symbols cat) then inr base_symbol
          else inl (not_found base_symbol ex)
      | first :: others =>
          match linear_of (first :: others) with
          | lin :: _ => inr (m_symbol lin)
          | [] => inr (m_symbol first)
          end
      end
  | [_] => inl (Exc ValueError "not enough values to unpack (expected 2, got 1)")
  | _ => inl (Exc ValueError "too many values to unpack (expected 2)")
  end.

Definition find_perp_market_symbol (env : Env) (st : state) (ex base_symbol : string)
    : state * (exc + string) :=
  let cache_key := (ex, base_symbol) in
  match perp_symbol_cache st !! cache_key with
  | Some cached => (st, inr cached)
  | None =>
      let st := record_call (LoadMarkets ex) st in
      match load_markets env ex with
      | inl e => (st, inl e)
      | inr cat =>
          match choose_market cat base_symbol ex with
          | inl e => (st, inl e)
          | inr chosen =>
              (set_perp_symbol_cache (insert cache_key chosen) st, inr chosen)
          end
      end
  end.

(** ** [exchange_order_for] *)

(** [if ex not in order: order.append(ex)]. *)
Definition append_missing (order : list string) (ex : string) : list string :=
  if bool_decide (ex ∈ order) then order else order ++ [ex].

(** [cooldown_until.get(ex, 0)]. *)
Definition cooldown_of (st : state) (ex : string) : Z :=
  default 0 (cooldown_until st !! ex).

(** The function once [now = time.time()] has been read. *)
Definition exchange_order_at (now : Z) (st : state) (symbol tf : string) : list string :=
  let pin := pinned_exchange st !! (symbol, tf) in
  let order :=
    match pin with
    | Some p => if bool_decide (p ∈ EXCHANGES) then [p] else []
    | None => []
    end in
  let order := foldl append_missing order EXCHANGES in
  filter (λ ex, cooldown_of st ex ≤ now) order.

Definition exchange_order_for (env : Env) (st : state) (symbol tf : string)
    : state * list string :=
  let '(now, st') := read_clock env st in
  (st', exchange_order_at now st' symbol tf).

(** ** [fetch_ohlcv_pinned] *)

Definition fetched : Type := string * string * list candle.

(** The [try] block of one turn of the loop. *)
Definition try_body (env : Env) (st : state) (ex_name base_symbol timeframe : string)
    (limit : nat) : state * (exc + fetched) :=
  let ex := ex_id ex_name in
  let '(st, r) := find_perp_market_symbol env st ex base_symbol in
  match r with
  | inl e => (st, inl e)
  | inr market_symbol =>
      let st := record_call (FetchOhlcv ex market_symbol timeframe limit) st in
      match fetch_ohlcv env ex market_symbol timeframe limit with
      | inl e => (st, inl e)
      | inr candles =>
          let prev_pin := pinned_exchange st !! (base_symbol, timeframe) in
          let st := set_pinned_exchange (insert (base_symbol, timeframe) ex_name) st in
          let st :=
            match prev_pin with
            | Some p =>
                if negb (String.eqb p "") && negb (String.eqb p ex_name)
                then send (MsgFailover base_symbol timeframe p ex_name) st
                else st
            | None => st
            end in
          (st, inr (ex_name, market_symbol, candles))
      end
  end.

(** The [except Exception as e] block, up to its [continue]. *)
Definition except_body (cfg : Config) (env : Env) (st : state)
    (ex_name base_symbol : string) (e : exc) : state :=
  let st :=
    if is_recoverable e then
      let '(now, st) := read_clock env st in
      set_cooldown_until (insert ex_name (now + COOLDOWN_SECONDS cfg)) st
    else st in
  if isinstance_BadSymbol (exc_type e) then st
  else
    let msg := Str.lower (exc_msg e) in
    if Str.contains "symbol" msg || Str.contains "market" msg
    then set_perp_symbol_cache (delete (ex_id ex_name, base_symbol)) st
    else st.

(** The [for ex_name in ...] loop and the [raise] after it. *)
Fixpoint fetch_loop (cfg : Config) (env : Env) (base_symbol timeframe : string)
    (limit : nat) (order : list string) (st : state)
    (tried : list string) (last_err : option exc) : state * (failure + fetched) :=
  match order with
  | [] => (st, inl (NoExchangeResponded base_symbol timeframe tried last_err))
  | ex_name :: order' =>
      let tried := tried ++ [ex_name] in
      match try_body env st ex_name base_symbol timeframe limit with
      | (st, inr r) => (st, inr r)
      | (st, inl e) =>
          fetch_loop cfg env base_symbol timeframe limit order'
            (except_body cfg env st ex_name base_symbol e) tried (Some e)
      end
  end.

Definition fetch_ohlcv_pinned (cfg : Config) (env : Env) (st : state)
    (base_symbol timeframe : string) (limit : nat) : state * (failure + fetched) :=
  let '(st, order) := exchange_order_for env st base_symbol timeframe in
  fetch_loop cfg env base_symbol timeframe limit order st [] None.

(** ** [get_rsi] *)

(** [s.iloc[i]] for an integer [i]: counted from the end when negative,
    [None] for the [IndexError] out of bounds. *)
Definition iloc {A : Type} (s : list A) (i : Z) : option A :=
  let n := Z.of_nat (length s) in
  let j := if i <? 0 then i + n else i in
  if (0 <=? j) && (j <? n) then s !! Z.to_nat j else None.

Definition get_rsi (cfg : Config) (env : Env) (st : state) (base_symbol tf : string)
    : state * (failure + (string * string * float * float)) :=
  match fetch_ohlcv_pinned cfg env st base_symbol tf 100 with
  | (st, inl err) => (st, inl err)
  | (st, inr (ex_name, market_symbol, candles)) =>
      let rsi := rsi_series env 14 (c_c <$> candles) in
      match iloc rsi (-2) with
      | None => (st, inl IlocOutOfBounds)
      | Some prev =>
          match iloc rsi (-1) with
          | None => (st, inl IlocOutOfBounds)
          | Some curr => (st, inr (ex_name, market_symbol, prev, curr))
          end
      end
  end.

(** ** [run]: one timeframe of one cycle *)

(** Python's [x > y], [x >= y] and [x <= y] on floats; all three are
    [False] as soon as one side is a NaN. *)
Definition float_gt (x y : float) : bool := PrimFloat.ltb y x.
Definition float_lt (x y : float) : bool := PrimFloat.ltb x y.
Definition float_ge (x y : float) : bool := PrimFloat.leb y x.
Definition float_le (x y : float) : bool := PrimFloat.leb x y.

(** [f"{ex_name}|{market_symbol}|{tf}"]. *)
Definition series_key (ex_name market_symbol tf : string) : string :=
  ex_name +:+ "|" +:+ market_symbol +:+ "|" +:+ tf.

(** The body of the [try] in [run] after [get_rsi] has returned. *)
Definition cross_detection (cfg : Config) (st : state)
    (ex_name market_symbol tf : string) (prev_rsi curr_rsi : float) : state :=
  let key := series_key ex_name market_symbol tf in
  match last_state st !! key with
  | None => set_last_state (insert key curr_rsi) st
  | Some _ =>
      let st :=
        if float_gt prev_rsi (RSI_LOW cfg) && float_le curr_rsi (RSI_LOW cfg)
        then send (MsgCrossBelow market_symbol tf curr_rsi ex_name) st
        else st in
      let st :=
        if float_lt prev_rsi (RSI_HIGH cfg) && float_ge curr_rsi (RSI_HIGH cfg)
        then send (MsgCrossAbove market_symbol tf curr_rsi ex_name) st
        else st in
      set_last_state (insert key curr_rsi) st
  end.

(** One turn of [for tf in TIMEFRAMES]. *)
Definition run_timeframe (cfg : Config) (env : Env) (st : state) (tf : string) : state :=
  match get_rsi cfg env st (SYMBOL cfg) tf with
  | (st, inr (ex_name, market_symbol, prev_rsi, curr_rsi)) =>
      cross_detection cfg st ex_name market_symbol tf prev_rsi curr_rsi
  | (st, inl e) => record_call (PrintError tf e) st
  end.

(** The calls made between two states of one run. *)
Definition calls_since (st st' : state) : list call :=
  drop (length (calls st)) (calls st').

(** ** Notions the statements are written with *)

(** The calls of a cross-detection step on a key that is already stored,
    read off the fresh pair and the two thresholds. *)
Definition cross_calls (cfg : Config) (ex_name market_symbol tf : string)
    (prev curr : float) : list call :=
  (if float_gt prev (RSI_LOW cfg) && float_le curr (RSI_LOW cfg)
   then [Send (MsgCrossBelow market_symbol tf curr ex_name)] else [])
  ++ (if float_lt prev (RSI_HIGH cfg) && float_ge curr (RSI_HIGH cfg)
      then [Send (MsgCrossAbove market_symbol tf curr ex_name)] else []).

(** An active market of the pair that is a swap: the markets the resolver
    selects among. *)
Definition perp_candidate (base quote : string) (m : market) : bool :=
  truthy (default (PyBool true) (m_active m))
  && eq_str (m_base m) base && eq_str (m_quote m) quote
  && (is_True (m_swap m) || eq_str (m_type m) "swap").

(** The sources in the order they are tried before the cooldown filter:
    a known pin first, then the others by priority. *)
Definition pin_then_priority (pin : option string) : list string :=
  match pin with
  | Some p =>
      if bool_decide (p ∈ EXCHANGES) then p :: filter (λ ex, ex ≠ p) EXCHANGES
      else EXCHANGES
  | None => EXCHANGES
  end.

(** What resolving and fetching at one source gives, started in [st]. *)
Definition attempt (env : Env) (st : state) (ex_name base_symbol timeframe : string)
    (limit : nat) : exc + (string * list candle) :=
  match snd (find_perp_market_symbol env st (ex_id ex_name) base_symbol) with
  | inl e => inl e
  | inr market_symbol =>
      match fetch_ohlcv env (ex_id ex_name) market_symbol timeframe limit with
      | inl e => inl e
      | inr candles => inr (market_symbol, candles)
      end
  end.

Definition attempt_error (env : Env) (st : state) (base_symbol timeframe : string)
    (limit : nat) (ex_name : string) : option exc :=
  match attempt env st ex_name base_symbol timeframe limit with
  | inl e => Some e
  | inr _ => None
  end.

(** The error of the last source of [order], [None] for no source. *)
Definition last_attempt_error (env : Env) (st : state) (base_symbol timeframe : string)
    (limit : nat) (order : list string) : option exc :=
  last order ≫= attempt_error env st base_symbol timeframe limit.

(** The failover message of a successful fetch at [ex_name], if any. *)
Definition failover_calls (prev_pin : option string) (base_symbol timeframe ex_name : string)
    : list call :=
  match prev_pin with
  | Some p =>
      if negb (String.eqb p "") && negb (String.eqb p ex_name)
      then [Send (MsgFailover base_symbol timeframe p ex_name)]
      else []
  | None => []
  end.

(** The provider calls of the [try] block of one turn: the catalog load on
    a cache miss, then the candle request once the symbol is resolved. *)
Definition provider_calls (env : Env) (st : state)
    (ex_name base_symbol timeframe : string) (limit : nat) : list call :=
  match perp_symbol_cache st !! (ex_id ex_name, base_symbol) with
  | Some _ => []
  | None => [LoadMarkets (ex_id ex_name)]
  end
  ++ match (find_perp_market_symbol env st (ex_id ex_name) base_symbol).2 with
     | inl _ => []
     | inr market_symbol =>
         [FetchOhlcv (ex_id ex_name) market_symbol timeframe limit]
     end.

(** The state in which the loop goes on after a failed turn. *)
Definition after_failure (cfg : Config) (env : Env) (st : state)
    (ex_name base_symbol timeframe : string) (limit : nat) (e : exc) : state :=
  except_body cfg env (try_body env st ex_name base_symbol timeframe limit).1
    ex_name base_symbol e.

(** The provider calls of the turns for [sources], one turn after the
    other. *)
Definition turns_calls (env : Env) (st : state) (base_symbol timeframe : string)
    (limit : nat) (sources : list string) : list call :=
  sources ≫= (λ ex_name, provider_calls env st ex_name base_symbol timeframe limit).

(** Pins are only ever written with a name taken from [EXCHANGES]. *)
Definition pins_known (st : state) : Prop :=
  ∀ key p, pinned_exchange st !! key = Some p → p ∈ EXCHANGES.

(** The text of the error speaks of a symbol or a market: the test that
    guards the eviction. *)
Definition mentions_market (e : exc) : bool :=
  let msg := Str.lower (exc_msg e) in
  Str.contains "symbol" msg || Str.contains "market" msg.

(** Number of [ex.load_markets()] calls in a log. *)
Definition load_markets_count (cs : list call) : nat :=
  length (List.filter (λ c, match c with LoadMarkets _ => true | _ => false end) cs).

(** ** Sample data *)

Definition swap_market (sym base quote : string) (linear : pyval) : market :=
  {| m_symbol := sym; m_base := PyStr base; m_quote := PyStr quote;
     m_active := Some (PyBool true); m_swap := PyBool true;
     m_type := PyStr "swap"; m_linear := linear |}.

Definition spot_market (sym base quote : string) : market :=
  {| m_symbol := sym; m_base := PyStr base; m_quote := PyStr quote;
     m_active := Some (PyBool true); m_swap := PyBool false;
     m_type := PyStr "spot"; m_linear := PyNone |}.

(** A catalog with the spot pair, an inverse swap and a linear swap. *)
Definition sample_catalog : catalog :=
  {| markets := [ spot_market "BTC/USDT" "BTC" "USDT";
                  swap_market "BTC/USDT:BTC" "BTC" "USDT" (PyBool false);
                  swap_market "BTC/USDT:USDT" "BTC" "USDT" (PyBool true) ];
     symbols := ["BTC/USDT"; "BTC/USDT:BTC"; "BTC/USDT:USDT"] |}.

(** A catalog with the spot pair only. *)
Definition spot_catalog : catalog :=
  {| markets := [ spot_market "BTC/USDT" "BTC" "USDT" ];
     symbols := ["BTC/USDT"] |}.

Definition two_candles : list candle :=
  [ Candle 0 1 2 0.5 1.5 10; Candle 60000 1.5 2 1 1.75 12 ]%float.

(** An indicator that has no value yet at any position, as [ta] answers on
    a series shorter than its window. *)
Definition nan_series (window : nat) (closes : list float) : list float :=
  (λ _, nan) <$> closes.

(** The network error of bybit in [sample_env]. *)
Definition unreachable : exc :=
  Exc NetworkError "bybit GET https://api.bybit.com/v5/market/instruments-info".

(** bybit is unreachable, kucoin answers, okx rejects the symbol. *)
Definition sample_env : Env :=
  {| time_time := λ n, 1000 + Z.of_nat n;
     load_markets := λ ex,
       if String.eqb ex "bybit"
       then inl unreachable
       else inr sample_catalog;
     fetch_ohlcv := λ ex market_symbol timeframe limit,
       if String.eqb ex "kucoin" then inr two_candles
       else inl (Exc ExchangeError "okx does not have market symbol BTC/USDT:USDT");
     rsi_series := nan_series |}.

(** Nothing answers. *)
Definition down_env : Env :=
  {| time_time := λ n, 1000 + Z.of_nat n;
     load_markets := λ ex, inl (Exc RequestTimeout "request timed out");
     fetch_ohlcv := λ ex market_symbol timeframe limit,
       inl (Exc RequestTimeout "request timed out");
     rsi_series := nan_series |}.

(** Only the spot pair is listed, everywhere. *)
Definition spot_env : Env :=
  {| time_time := λ n, 1000 + Z.of_nat n;
     load_markets := λ ex, inr spot_catalog;
     fetch_ohlcv := λ ex market_symbol timeframe limit, inr two_candles;
     rsi_series := nan_series |}.

(** A later cycle: kucoin times out, okx answers. *)
Definition later_env : Env :=
  {| time_time := λ n, 1030 + Z.of_nat n;
     load_markets := λ ex, inr sample_catalog;
     fetch_ohlcv := λ ex market_symbol timeframe limit,
       if String.eqb ex "okx" then inr two_candles
       else inl (Exc RequestTimeout "kucoin request timed out");
     rsi_series := nan_series |}.

(** The candle request is refused with ccxt's own [BadSymbol] text. *)
Definition renamed_env : Env :=
  {| time_time := λ n, 1000 + Z.of_nat n;
     load_markets := λ ex, inr sample_catalog;
     fetch_ohlcv := λ ex market_symbol timeframe limit,
       inl (Exc BadSymbol "bybit does not have market symbol BTC/USDT:USDT");
     rsi_series := nan_series |}.

(** Every source in cooldown until tick 2000. *)
Definition cooled_state : state :=
  set_cooldown_until (λ _, list_to_map ((λ ex, (ex, 2000)) <$> EXCHANGES)) initial_state.

(** A state in which the series of kucoin on 5m has a stored value. *)
Definition stored_state (v : float) : state :=
  set_last_state (insert (series_key "kucoin" "BTC/USDT:USDT" "5m") v) initial_state.

(** ** [run]: the loop *)

(** [for tf in TIMEFRAMES], its turns numbered from [turn]: [env_at n] holds
    the answers of the outside world during turn [n] of the run.  An
    exception of a turn is printed inside [run_timeframe]; the next turn
    follows in any case. *)
Fixpoint run_for (cfg : Config) (env_at : nat → Env) (turn : nat)
    (tfs : list string) (st : state) : state :=
  match tfs with
  | [] => st
  | tf :: tfs' =>
      run_for cfg env_at (S turn) tfs' (run_timeframe cfg (env_at turn) st tf)
  end.

(** [n] rounds of [while True], the first turn being turn [turn].  The
    [time.sleep] between two rounds touches no dictionary, and the two
    messages sent before the loop touch none either. *)
Fixpoint run_cycles (cfg : Config) (env_at : nat → Env) (turn n : nat)
    (st : state) : state :=
  match n with
  | O => st
  | S n' =>
      run_cycles cfg env_at (turn + length (TIMEFRAMES cfg)) n'
        (run_for cfg env_at turn (TIMEFRAMES cfg) st)
  end.

(** ** Further notions *)

(** Number of ["/"] in a string. *)
Fixpoint slashes (s : string) : nat :=
  match s with
  | EmptyString => O
  | String c s' => ((if Ascii.eqb c "/"%char then 1 else 0) + slashes s')%nat
  end.

(** No ["|"] in a string. *)
Fixpoint no_bar (s : string) : bool :=
  match s with
  | EmptyString => true
  | String c s' => negb (Ascii.eqb c "|"%char) && no_bar s'
  end.

Definition is_load_of (x : string) (c : call) : bool :=
  match c with
  | LoadMarkets ex => String.eqb ex x
  | _ => false
  end.

Definition is_fetch_of (x : string) (c : call) : bool :=
  match c with
  | FetchOhlcv ex _ _ _ => String.eqb ex x
  | _ => false
  end.

Definition is_send (c : call) : bool :=
  match c with
  | Send _ => true
  | _ => false
  end.

(** Number of calls of a log that pass a test. *)
Definition count_calls (p : call → bool) (cs : list call) : nat :=
  length (List.filter p cs).

(** Every pin is for the configured symbol and one of the configured
    timeframes. *)
Definition pins_within (cfg : Config) (st : state) : Prop :=
  ∀ key p, pinned_exchange st !! key = Some p →
    ∃ tf, tf ∈ TIMEFRAMES cfg ∧ key = (SYMBOL cfg, tf).

(** Where a float that is not a NaN stands on the line: minus infinity,
    the negative numbers, the zeros, the positive numbers, plus infinity,
    and inside the numbers by exponent, then mantissa. *)
Definition sf_rank (f : SpecFloat.spec_float) : option (Z * Z * Z) :=
  match f with
  | SpecFloat.S754_nan => None
  | SpecFloat.S754_infinity true => Some (-2, 0, 0)
  | SpecFloat.S754_finite true m e => Some (-1, - e, - Z.pos m)
  | SpecFloat.S754_zero _ => Some (0, 0, 0)
  | SpecFloat.S754_finite false m e => Some (1, e, Z.pos m)
  | SpecFloat.S754_infinity false => Some (2, 0, 0)
  end.

(** Lexicographic order on ranks. *)
Definition rank_lt (a b : Z * Z * Z) : Prop :=
  a.1.1 < b.1.1
  ∨ (a.1.1 = b.1.1 ∧ (a.1.2 < b.1.2 ∨ (a.1.2 = b.1.2 ∧ a.2 < b.2))).

Definition rank_le (a b : Z * Z * Z) : Prop := rank_lt a b ∨ a = b.

(** kucoin answers with a single candle. *)
Definition one_candle_env : Env :=
  {| time_time := λ n, 1000 + Z.of_nat n;
     load_markets := λ ex, inr sample_catalog;
     fetch_ohlcv := λ ex market_symbol timeframe limit,
       if String.eqb ex "kucoin" then inr [Candle 0 1 2 0.5 1.5 10]%float
       else inl (Exc RequestTimeout "request timed out");
     rsi_series := nan_series |}.

(** kucoin pinned for the pair, its swap symbol cached. *)
Definition steady_state : state :=
  set_perp_symbol_cache (insert ("kucoin", "BTC/USDT") "BTC/USDT:USDT")
    (set_pinned_exchange (insert ("BTC/USDT", "5m") "kucoin") initial_state).

(** * Properties *)

(** ** The call log *)

Lemma calls_since_same st st' : calls st' = calls st → calls_since st st' = [].
Proof. unfold calls_since. intros ->. apply drop_all. Qed.

Lemma calls_since_app st st' new :
  calls st' = calls st ++ new → calls_since st st' = new.
Proof. unfold calls_since. intros ->. by rewrite drop_app_length. Qed.

(** ** Cross detection *)

Lemma cross_detection_first cfg st ex_name market_symbol tf prev curr :
  last_state st !! series_key ex_name market_symbol tf = None →
  cross_detection cfg st ex_name market_symbol tf prev curr
  = set_last_state (insert (series_key ex_name market_symbol tf) curr) st.
Proof. unfold cross_detection. by intros ->. Qed.

Lemma cross_detection_later cfg st ex_name market_symbol tf prev curr :
  is_Some (last_state st !! series_key ex_name market_symbol tf) →
  let st' := cross_detection cfg st ex_name market_symbol tf prev curr in
  calls st' = calls st ++ cross_calls cfg ex_name market_symbol tf prev curr
  ∧ last_state st' = <[series_key ex_name market_symbol tf := curr]> (last_state st).
Proof.
  intros [v Hv]. unfold cross_detection, cross_calls. rewrite Hv.
  destruct (float_gt prev (RSI_LOW cfg) && float_le curr (RSI_LOW cfg));
    destruct (float_lt prev (RSI_HIGH cfg) && float_ge curr (RSI_HIGH cfg));
    cbn; rewrite <- ?app_assoc, ?app_nil_r; auto.
Qed.

Lemma below_in_cross_calls cfg ex_name market_symbol tf prev curr :
  Send (MsgCrossBelow market_symbol tf curr ex_name)
    ∈ cross_calls cfg ex_name market_symbol tf prev curr
  ↔ float_gt prev (RSI_LOW cfg) = true ∧ float_le curr (RSI_LOW cfg) = true.
Proof.
  unfold cross_calls. rewrite <- andb_true_iff.
  destruct (float_gt prev (RSI_LOW cfg) && float_le curr (RSI_LOW cfg));
    destruct (float_lt prev (RSI_HIGH cfg) && float_ge curr (RSI_HIGH cfg));
    cbn; rewrite ?elem_of_cons, ?elem_of_nil; intuition congruence.
Qed.

Lemma above_in_cross_calls cfg ex_name market_symbol tf prev curr :
  Send (MsgCrossAbove market_symbol tf curr ex_name)
    ∈ cross_calls cfg ex_name market_symbol tf prev curr
  ↔ float_lt prev (RSI_HIGH cfg) = true ∧ float_ge curr (RSI_HIGH cfg) = true.
Proof.
  unfold cross_calls. rewrite <- andb_true_iff.
  destruct (float_gt prev (RSI_LOW cfg) && float_le curr (RSI_LOW cfg));
    destruct (float_lt prev (RSI_HIGH cfg) && float_ge curr (RSI_HIGH cfg));
    cbn; rewrite ?elem_of_cons, ?elem_of_nil; intuition congruence.
Qed.

(** In [run], the step is what follows a [get_rsi] that returned. *)
Lemma run_timeframe_detects cfg env st tf st1 ex_name market_symbol prev curr :
  get_rsi cfg env st (SYMBOL cfg) tf = (st1, inr (ex_name, market_symbol, prev, curr)) →
  run_timeframe cfg env st tf
  = cross_detection cfg st1 ex_name market_symbol tf prev curr.
Proof. unfold run_timeframe. by intros ->. Qed.

(** C7: a cross-detection step on a key with no stored value records
    [curr] as the baseline and sends nothing, whatever the pair is; on a key
    with a stored value the downward message is sent iff
    [prev > RSI_LOW and curr <= RSI_LOW], the upward one iff
    [prev < RSI_HIGH and curr >= RSI_HIGH], nothing else is sent, and the
    stored value becomes [curr] in every case. *)
Theorem cross_detection_step cfg st ex_name market_symbol tf prev curr :
  let key := series_key ex_name market_symbol tf in
  let st' := cross_detection cfg st ex_name market_symbol tf prev curr in
  (last_state st !! key = None →
     calls_since st st' = [] ∧ last_state st' = <[key := curr]> (last_state st))
  ∧ (is_Some (last_state st !! key) →
     (Send (MsgCrossBelow market_symbol tf curr ex_name) ∈ calls_since st st'
        ↔ float_gt prev (RSI_LOW cfg) = true ∧ float_le curr (RSI_LOW cfg) = true)
     ∧ (Send (MsgCrossAbove market_symbol tf curr ex_name) ∈ calls_since st st'
        ↔ float_lt prev (RSI_HIGH cfg) = true ∧ float_ge curr (RSI_HIGH cfg) = true)
     ∧ (∀ c, c ∈ calls_since st st' →
          c = Send (MsgCrossBelow market_symbol tf curr ex_name)
          ∨ c = Send (MsgCrossAbove market_symbol tf curr ex_name))
     ∧ last_state st' = <[key := curr]> (last_state st)).
Proof.
  intros key st'. split.
  - intros Hnone. subst st' key. rewrite cross_detection_first by done.
    split; [by apply calls_since_same | done].
  - intros Hsome.
    destruct (cross_detection_later cfg st ex_name market_symbol tf prev curr Hsome)
      as [Hcalls Hlast].
    fold st' in Hcalls, Hlast. rewrite (calls_since_app _ _ _ Hcalls).
    split; [apply below_in_cross_calls |].
    split; [apply above_in_cross_calls |].
    split; [| exact Hlast].
    intros c. unfold cross_calls.
    destruct (float_gt prev (RSI_LOW cfg) && float_le curr (RSI_LOW cfg));
      destruct (float_lt prev (RSI_HIGH cfg) && float_ge curr (RSI_HIGH cfg));
      cbn; rewrite ?elem_of_cons, ?elem_of_nil; intuition congruence.
Qed.

(** The three pairs of the specification's cross-detection example, on a
    key with a stored value, with the default thresholds; and a first
    observation. *)
Example cross_detection_examples :
  calls_since (stored_state 50)
    (cross_detection default_config (stored_state 50)
       "kucoin" "BTC/USDT:USDT" "5m" 69 71)
  = [Send (MsgCrossAbove "BTC/USDT:USDT" "5m" 71 "kucoin")]
  ∧ calls_since (stored_state 50)
      (cross_detection default_config (stored_state 50)
         "kucoin" "BTC/USDT:USDT" "5m" 31 29)
    = [Send (MsgCrossBelow "BTC/USDT:USDT" "5m" 29 "kucoin")]
  ∧ calls_since (stored_state 50)
      (cross_detection default_config (stored_state 50)
         "kucoin" "BTC/USDT:USDT" "5m" 50 55)
    = []
  ∧ calls_since initial_state
      (cross_detection default_config initial_state
         "kucoin" "BTC/USDT:USDT" "5m" 69 71)
    = [].
Proof. repeat split; vm_compute; reflexivity. Qed.

Lemma cross_detection_step_witness :
  (calls_since initial_state
     (cross_detection default_config initial_state
        "kucoin" "BTC/USDT:USDT" "5m" 69 71) = []
   ∧ last_state
       (cross_detection default_config initial_state
          "kucoin" "BTC/USDT:USDT" "5m" 69 71)
     = <[series_key "kucoin" "BTC/USDT:USDT" "5m" := 71%float]>
         (last_state initial_state))
  ∧ (Send (MsgCrossAbove "BTC/USDT:USDT" "5m" 71 "kucoin")
       ∈ calls_since (stored_state 50)
           (cross_detection default_config (stored_state 50)
              "kucoin" "BTC/USDT:USDT" "5m" 69 71)
     ↔ float_lt 69 (RSI_HIGH default_config) = true
       ∧ float_ge 71 (RSI_HIGH default_config) = true).
Proof.
  split.
  - apply (cross_detection_step default_config initial_state
             "kucoin" "BTC/USDT:USDT" "5m" 69 71).
    vm_compute. reflexivity.
  - apply (cross_detection_step default_config (stored_state 50)
             "kucoin" "BTC/USDT:USDT" "5m" 69 71).
    vm_compute. eauto.
Defined.

(** C10: on a key that has a stored value, the calls of a
    cross-detection step are a function of the fresh pair and the
    thresholds: two states that both store a value for the key, whatever the
    two values are, give the same calls for the same pair. *)
Theorem cross_calls_ignore_stored_value cfg st1 st2 ex_name market_symbol tf prev curr :
  is_Some (last_state st1 !! series_key ex_name market_symbol tf) →
  is_Some (last_state st2 !! series_key ex_name market_symbol tf) →
  calls_since st1 (cross_detection cfg st1 ex_name market_symbol tf prev curr)
  = calls_since st2 (cross_detection cfg st2 ex_name market_symbol tf prev curr)
  ∧ calls_since st1 (cross_detection cfg st1 ex_name market_symbol tf prev curr)
    = cross_calls cfg ex_name market_symbol tf prev curr.
Proof.
  intros H1 H2.
  destruct (cross_detection_later cfg st1 ex_name market_symbol tf prev curr H1) as [Hc1 _].
  destruct (cross_detection_later cfg st2 ex_name market_symbol tf prev curr H2) as [Hc2 _].
  by rewrite (calls_since_app _ _ _ Hc1), (calls_since_app _ _ _ Hc2).
Qed.

Lemma cross_calls_ignore_stored_value_witness :
  calls_since (stored_state 10)
    (cross_detection default_config (stored_state 10)
       "kucoin" "BTC/USDT:USDT" "5m" 69 71)
  = calls_since (stored_state 90)
      (cross_detection default_config (stored_state 90)
         "kucoin" "BTC/USDT:USDT" "5m" 69 71).
Proof.
  apply (cross_calls_ignore_stored_value default_config
           (stored_state 10) (stored_state 90)
           "kucoin" "BTC/USDT:USDT" "5m" 69 71);
    vm_compute; eauto.
Defined.

(** ** The order of the sources *)

Lemma filter_agree {A} (P Q : A → Prop) `{∀ x, Decision (P x)} `{∀ x, Decision (Q x)}
    (l : list A) :
  (∀ x, x ∈ l → P x ↔ Q x) → filter P l = filter Q l.
Proof.
  induction l as [|a l IH]; intros HPQ; [done |].
  rewrite !filter_cons.
  rewrite IH by (intros x Hx; apply HPQ; by right).
  destruct (decide (P a)) as [HP | HP], (decide (Q a)) as [HQ | HQ]; try done.
  - destruct HQ. apply HPQ; [left | done].
  - destruct HP. apply HPQ; [left | done].
Qed.

(** The loop over [EXCHANGES] adds, in order, the names not already there. *)
Lemma foldl_append_missing (acc l : list string) :
  NoDup l → foldl append_missing acc l = acc ++ filter (λ ex, ex ∉ acc) l.
Proof.
  revert acc. induction l as [|x l IH]; intros acc Hnd.
  - by rewrite app_nil_r.
  - apply NoDup_cons in Hnd as [Hx Hnd]. cbn [foldl]. unfold append_missing at 2.
    case_bool_decide as Hin.
    + rewrite IH by done. rewrite filter_cons.
      destruct (decide (x ∉ acc)); tauto.
    + rewrite IH by done. rewrite (filter_cons (λ ex, ex ∉ acc)).
      destruct (decide (x ∉ acc)); [| tauto].
      rewrite <- app_assoc. cbn. do 2 f_equal.
      apply filter_agree. intros y Hy. rewrite elem_of_app, list_elem_of_singleton.
      split; [tauto |]. intros Hacc [? | ->]; tauto.
Qed.

Lemma NoDup_EXCHANGES : NoDup EXCHANGES.
Proof. apply (bool_decide_unpack _). vm_compute. exact I. Qed.

Lemma exchange_order_at_spec now st symbol tf :
  exchange_order_at now st symbol tf
  = filter (λ ex, cooldown_of st ex ≤ now)
      (pin_then_priority (pinned_exchange st !! (symbol, tf))).
Proof.
  unfold exchange_order_at, pin_then_priority. f_equal.
  rewrite foldl_append_missing by apply NoDup_EXCHANGES.
  destruct (pinned_exchange st !! (symbol, tf)) as [p|].
  - case_bool_decide.
    + cbn [app]. f_equal. apply filter_agree. intros x _.
      by rewrite list_elem_of_singleton.
    + cbn [app]. vm_compute. reflexivity.
  - vm_compute. reflexivity.
Qed.

Lemma elem_of_pin_then_priority pin ex :
  ex ∈ pin_then_priority pin ↔ ex ∈ EXCHANGES.
Proof.
  unfold pin_then_priority. destruct pin as [p|]; [| done].
  case_bool_decide as Hp; [| done].
  rewrite elem_of_cons, list_elem_of_filter.
  destruct (decide (ex = p)) as [-> | Hne]; tauto.
Qed.

Lemma NoDup_pin_then_priority pin : NoDup (pin_then_priority pin).
Proof.
  unfold pin_then_priority. destruct pin as [p|]; [| apply NoDup_EXCHANGES].
  case_bool_decide; [| apply NoDup_EXCHANGES].
  apply NoDup_cons. split.
  - rewrite list_elem_of_filter. tauto.
  - apply NoDup_filter, NoDup_EXCHANGES.
Qed.

Lemma elem_of_exchange_order_at now st symbol tf ex :
  ex ∈ exchange_order_at now st symbol tf
  ↔ ex ∈ EXCHANGES ∧ cooldown_of st ex ≤ now.
Proof.
  rewrite exchange_order_at_spec, list_elem_of_filter, elem_of_pin_then_priority. tauto.
Qed.

Lemma NoDup_exchange_order_at now st symbol tf :
  NoDup (exchange_order_at now st symbol tf).
Proof.
  rewrite exchange_order_at_spec. apply NoDup_filter, NoDup_pin_then_priority.
Qed.

(** C5: the order computed by [exchange_order_for] at the time [now] it
    reads is the pinned source first when the pin names a member of
    [EXCHANGES], then the other members of [EXCHANGES] in priority order,
    with the sources whose [cooldown_until] exceeds [now] removed; a pin
    outside [EXCHANGES] changes nothing; no source occurs twice. *)
Theorem exchange_order_for_spec env st symbol tf :
  let now := time_time env (clock_reads st) in
  let pin := pinned_exchange st !! (symbol, tf) in
  let order := (exchange_order_for env st symbol tf).2 in
  order
  = filter (λ ex, ¬ (now < cooldown_of st ex))
      (match pin with
       | Some p =>
           if bool_decide (p ∈ EXCHANGES)
           then p :: filter (λ ex, ex ≠ p) EXCHANGES
           else EXCHANGES
       | None => EXCHANGES
       end)
  ∧ NoDup order
  ∧ (∀ ex, ex ∈ order ↔ ex ∈ EXCHANGES ∧ ¬ (now < cooldown_of st ex)).
Proof.
  intros now pin order. subst order. unfold exchange_order_for, read_clock.
  cbn [snd]. split; [| split].
  - rewrite exchange_order_at_spec. cbn. fold now pin.
    apply filter_agree. intros x _. unfold cooldown_of. cbn. lia.
  - apply NoDup_exchange_order_at.
  - intros ex. rewrite elem_of_exchange_order_at. unfold cooldown_of. cbn.
    fold now. split; intros [? ?]; (split; [done | lia]).
Qed.

(** ** Cooldown *)

Lemma except_body_cooldown cfg env st ex_name base_symbol e :
  is_recoverable e = true →
  cooldown_until (except_body cfg env st ex_name base_symbol e)
  = <[ex_name := time_time env (clock_reads st) + COOLDOWN_SECONDS cfg]>
      (cooldown_until st).
Proof.
  intros Hrec. unfold except_body. rewrite Hrec. cbn.
  destruct (isinstance_BadSymbol (exc_type e)); [done |].
  by destruct (Str.contains "symbol" _ || Str.contains "market" _).
Qed.

Lemma except_body_no_cooldown cfg env st ex_name base_symbol e :
  is_recoverable e = false →
  cooldown_until (except_body cfg env st ex_name base_symbol e) = cooldown_until st.
Proof.
  intros Hrec. unfold except_body. rewrite Hrec.
  destruct (isinstance_BadSymbol (exc_type e)); [done |].
  by destruct (Str.contains "symbol" _ || Str.contains "market" _).
Qed.

(** C6: when the handler puts a source of [EXCHANGES] in cooldown at the
    time [T] it reads, with duration [COOLDOWN_SECONDS], the stored expiry is
    [T + COOLDOWN_SECONDS]; as long as that expiry is the stored one, the
    source is in no order computed at a [now < T + COOLDOWN_SECONDS] and in
    every order computed at a [now >= T + COOLDOWN_SECONDS], the bound
    included. *)
Theorem cooldown_window cfg env st ex_name base_symbol e :
  ex_name ∈ EXCHANGES →
  is_recoverable e = true →
  let T := time_time env (clock_reads st) in
  let st' := except_body cfg env st ex_name base_symbol e in
  cooldown_until st' !! ex_name = Some (T + COOLDOWN_SECONDS cfg)
  ∧ (∀ later now symbol tf,
       cooldown_until later !! ex_name = cooldown_until st' !! ex_name →
       (now < T + COOLDOWN_SECONDS cfg →
          ex_name ∉ exchange_order_at now later symbol tf)
       ∧ (T + COOLDOWN_SECONDS cfg ≤ now →
          ex_name ∈ exchange_order_at now later symbol tf)).
Proof.
  intros Hex Hrec T st'.
  assert (Hcd : cooldown_until st' !! ex_name = Some (T + COOLDOWN_SECONDS cfg)).
  { subst st'. rewrite except_body_cooldown by done. by rewrite lookup_insert_eq. }
  split; [done |]. intros later now symbol tf Hsame.
  rewrite elem_of_exchange_order_at. unfold cooldown_of. rewrite Hsame, Hcd. cbn.
  split; [lia | tauto].
Qed.

Lemma cooldown_window_witness :
  cooldown_until
    (except_body default_config sample_env initial_state "bybit" "BTC/USDT"
       (Exc RequestTimeout "request timed out"))
    !! "bybit" = Some (1000 + 120)
  ∧ ("bybit" ∉ exchange_order_at 1119
                 (except_body default_config sample_env initial_state "bybit" "BTC/USDT"
                    (Exc RequestTimeout "request timed out"))
                 "BTC/USDT" "5m")
  ∧ ("bybit" ∈ exchange_order_at 1120
                 (except_body default_config sample_env initial_state "bybit" "BTC/USDT"
                    (Exc RequestTimeout "request timed out"))
                 "BTC/USDT" "5m").
Proof.
  pose proof (cooldown_window default_config sample_env initial_state
                "bybit" "BTC/USDT" (Exc RequestTimeout "request timed out")) as H.
  destruct H as [Hcd Hwin].
  - apply (bool_decide_unpack _). vm_compute. exact I.
  - vm_compute. reflexivity.
  - split; [exact Hcd |].
    split.
    + apply (Hwin _ 1119 "BTC/USDT" "5m" eq_refl). vm_compute. reflexivity.
    + apply (Hwin _ 1120 "BTC/USDT" "5m" eq_refl). vm_compute. discriminate.
Defined.

(** ** The market resolver *)

(** The loop keeps exactly the markets that pass the three tests. *)
Lemma swap_candidates_filter base quote ms :
  swap_candidates base quote ms = List.filter (perp_candidate base quote) ms.
Proof.
  induction ms as [|m ms IH]; [done |].
  cbn [swap_candidates List.filter]. unfold perp_candidate at 1. rewrite IH.
  destruct (truthy (default (PyBool true) (m_active m))); cbn; [| done].
  destruct (eq_str (m_base m) base); cbn; [| done].
  destruct (eq_str (m_quote m) quote); cbn; [| done].
  by destruct (is_True (m_swap m) || eq_str (m_type m) "swap").
Qed.

Lemma find_perp_market_symbol_hit env st ex base_symbol cached :
  perp_symbol_cache st !! (ex, base_symbol) = Some cached →
  find_perp_market_symbol env st ex base_symbol = (st, inr cached).
Proof. unfold find_perp_market_symbol. by intros ->. Qed.

Lemma find_perp_market_symbol_miss env st ex base_symbol :
  perp_symbol_cache st !! (ex, base_symbol) = None →
  find_perp_market_symbol env st ex base_symbol
  = match load_markets env ex with
    | inl e => (record_call (LoadMarkets ex) st, inl e)
    | inr cat =>
        match choose_market cat base_symbol ex with
        | inl e => (record_call (LoadMarkets ex) st, inl e)
        | inr chosen =>
            (set_perp_symbol_cache (insert (ex, base_symbol) chosen)
               (record_call (LoadMarkets ex) st), inr chosen)
        end
    end.
Proof. unfold find_perp_market_symbol. by intros ->. Qed.

(** C8: on a cache miss, with the catalog loaded and [base_symbol] of the
    form BASE/QUOTE, the resolver selects among the active swap markets of
    the pair: the first one flagged linear if there is one, otherwise the
    first one in the provider's order; with no such market it returns
    [base_symbol] itself when [ex.symbols] lists it, and raises [BadSymbol]
    otherwise. *)
Theorem resolve_on_miss env st ex base_symbol cat base quote :
  perp_symbol_cache st !! (ex, base_symbol) = None →
  load_markets env ex = inr cat →
  Str.split_slash base_symbol = [base; quote] →
  let candidates := List.filter (perp_candidate base quote) (markets cat) in
  let result := (find_perp_market_symbol env st ex base_symbol).2 in
  (∀ lin, head (linear_of candidates) = Some lin → result = inr (m_symbol lin))
  ∧ (∀ first, linear_of candidates = [] → head candidates = Some first →
       result = inr (m_symbol first))
  ∧ (candidates = [] → base_symbol ∈ symbols cat → result = inr base_symbol)
  ∧ (candidates = [] → base_symbol ∉ symbols cat →
       result = inl (not_found base_symbol ex)
       ∧ exc_type (not_found base_symbol ex) = BadSymbol).
Proof.
  intros Hmiss Hload Hsplit candidates result.
  assert (Hres : result
                 = match choose_market cat base_symbol ex with
                   | inl e => inl e
                   | inr chosen => inr chosen
                   end).
  { subst result. rewrite find_perp_market_symbol_miss, Hload by done.
    by destruct (choose_market cat base_symbol ex). }
  unfold choose_market in Hres.
  rewrite Hsplit, swap_candidates_filter in Hres. fold candidates in Hres.
  destruct candidates as [|first others] eqn:Hcands.
  - split; [done |]. split; [done |]. split.
    + intros _ Hin. by rewrite bool_decide_eq_true_2 in Hres.
    + intros _ Hnotin. by rewrite bool_decide_eq_false_2 in Hres.
  - destruct (linear_of (first :: others)) as [|lin lins] eqn:Hlin.
    + split; [done |]. split; [| done]. intros first' _ [= <-]. exact Hres.
    + split; [| done]. intros lin' [= <-]. exact Hres.
Qed.

Lemma resolve_on_miss_witness :
  (find_perp_market_symbol sample_env initial_state "kucoin" "BTC/USDT").2
  = inr "BTC/USDT:USDT".
Proof.
  pose proof (resolve_on_miss sample_env initial_state "kucoin" "BTC/USDT"
                sample_catalog "BTC" "USDT" eq_refl eq_refl eq_refl) as H.
  destruct H as [Hlinear _].
  apply (Hlinear (swap_market "BTC/USDT:USDT" "BTC" "USDT" (PyBool true))).
  vm_compute. reflexivity.
Defined.

(** The same resolver with no swap listed: the raw symbol is returned. *)
Example resolve_fallback :
  (find_perp_market_symbol spot_env initial_state "okx" "BTC/USDT").2
  = inr "BTC/USDT".
Proof. vm_compute. reflexivity. Qed.

(** Outside the theorem's premises: a [base_symbol] without a slash stops at
    the unpacking, even when [ex.symbols] lists it. *)
Example resolve_unformatted :
  (find_perp_market_symbol
     {| time_time := time_time spot_env;
        load_markets := λ _, inr (Catalog [] ["BTCUSDT"]);
        fetch_ohlcv := fetch_ohlcv spot_env;
        rsi_series := rsi_series spot_env |}
     initial_state "okx" "BTCUSDT").2
  = inl (Exc ValueError "not enough values to unpack (expected 2, got 1)").
Proof. vm_compute. reflexivity. Qed.

(** A successful resolution leaves its answer in the cache. *)
Lemma find_perp_market_symbol_cached env st ex base_symbol st1 chosen :
  find_perp_market_symbol env st ex base_symbol = (st1, inr chosen) →
  perp_symbol_cache st1 !! (ex, base_symbol) = Some chosen.
Proof.
  unfold find_perp_market_symbol.
  destruct (perp_symbol_cache st !! (ex, base_symbol)) as [cached|] eqn:Hc.
  - by intros [= <- <-].
  - destruct (load_markets env ex) as [e | cat]; [done |].
    destruct (choose_market cat base_symbol ex) as [e | s]; [done |].
    intros [= <- <-]. cbn. apply lookup_insert_eq.
Qed.

(** One call of the resolver makes at most one [load_markets] call, and
    only on a miss. *)
Lemma find_perp_market_symbol_calls env st ex base_symbol :
  calls (find_perp_market_symbol env st ex base_symbol).1
  = calls st
    ++ match perp_symbol_cache st !! (ex, base_symbol) with
       | Some _ => []
       | None => [LoadMarkets ex]
       end.
Proof.
  unfold find_perp_market_symbol.
  destruct (perp_symbol_cache st !! (ex, base_symbol)) as [cached|] eqn:Hc.
  - by rewrite app_nil_r.
  - destruct (load_markets env ex) as [e | cat]; [done |].
    by destruct (choose_market cat base_symbol ex) as [e | s].
Qed.

(** C9: when a call of the resolver returns a market symbol, a second call
    for the same source and base symbol, with the same environment and the
    cache left alone, is a cache hit: it returns the same symbol, changes
    nothing and calls nothing, so that the two calls together make at most
    one [load_markets] call.  The premise covers the fallback return. *)
Theorem resolver_idempotent env st ex base_symbol st1 chosen :
  find_perp_market_symbol env st ex base_symbol = (st1, inr chosen) →
  find_perp_market_symbol env st1 ex base_symbol = (st1, inr chosen)
  ∧ (load_markets_count
       (calls_since st (find_perp_market_symbol env st1 ex base_symbol).1) ≤ 1)%nat.
Proof.
  intros Hfirst.
  pose proof (find_perp_market_symbol_cached _ _ _ _ _ _ Hfirst) as Hcached.
  rewrite (find_perp_market_symbol_hit _ _ _ _ _ Hcached). split; [done |].
  cbn [fst]. pose proof (find_perp_market_symbol_calls env st ex base_symbol) as Hcalls.
  rewrite Hfirst in Hcalls. cbn [fst] in Hcalls.
  rewrite (calls_since_app _ _ _ Hcalls).
  destruct (perp_symbol_cache st !! (ex, base_symbol)); cbn; lia.
Qed.

(** The witness goes through the fallback: okx lists the spot pair only. *)
Lemma resolver_idempotent_witness :
  find_perp_market_symbol spot_env
    (find_perp_market_symbol spot_env initial_state "okx" "BTC/USDT").1
    "okx" "BTC/USDT"
  = ((find_perp_market_symbol spot_env initial_state "okx" "BTC/USDT").1,
     inr "BTC/USDT").
Proof.
  apply (resolver_idempotent spot_env initial_state "okx" "BTC/USDT").
  vm_compute. reflexivity.
Defined.

(** A resolution that fails caches nothing: the next call loads the catalog
    again. *)
Remark resolver_failure_not_cached env st ex base_symbol st1 e :
  find_perp_market_symbol env st ex base_symbol = (st1, inl e) →
  perp_symbol_cache st1 = perp_symbol_cache st
  ∧ calls (find_perp_market_symbol env st1 ex base_symbol).1
    = calls st ++ [LoadMarkets ex; LoadMarkets ex].
Proof.
  intros Hfirst.
  assert (Hmiss : perp_symbol_cache st !! (ex, base_symbol) = None).
  { destruct (perp_symbol_cache st !! (ex, base_symbol)) eqn:Hc; [| done].
    by rewrite (find_perp_market_symbol_hit _ _ _ _ _ Hc) in Hfirst. }
  assert (Hst1 : perp_symbol_cache st1 = perp_symbol_cache st
                 ∧ calls st1 = calls st ++ [LoadMarkets ex]).
  { rewrite find_perp_market_symbol_miss in Hfirst by done.
    destruct (load_markets env ex) as [e' | cat].
    - by injection Hfirst as <- _.
    - destruct (choose_market cat base_symbol ex); [| done].
      by injection Hfirst as <- _. }
  destruct Hst1 as [Hcache Hcalls]. split; [done |].
  rewrite find_perp_market_symbol_calls, Hcache, Hmiss, Hcalls.
  by rewrite <- app_assoc.
Qed.

(** ** One turn of the fetch loop *)

(** What a call of the resolver leaves alone. *)
Lemma find_perp_market_symbol_frame env st ex base_symbol :
  let st1 := (find_perp_market_symbol env st ex base_symbol).1 in
  pinned_exchange st1 = pinned_exchange st
  ∧ cooldown_until st1 = cooldown_until st
  ∧ clock_reads st1 = clock_reads st
  ∧ (∀ key, key ≠ (ex, base_symbol) →
       perp_symbol_cache st1 !! key = perp_symbol_cache st !! key).
Proof.
  unfold find_perp_market_symbol.
  destruct (perp_symbol_cache st !! (ex, base_symbol)) as [cached|]; [done |].
  destruct (load_markets env ex) as [e | cat]; [done |].
  destruct (choose_market cat base_symbol ex) as [e | chosen]; [done |].
  cbn. repeat split; try done. intros key Hkey. by rewrite lookup_insert_ne.
Qed.

(** The outcome of an attempt is decided by the environment and the cache
    entry of the source. *)
Lemma attempt_cache env st st' ex_name base_symbol timeframe limit :
  perp_symbol_cache st' !! (ex_id ex_name, base_symbol)
  = perp_symbol_cache st !! (ex_id ex_name, base_symbol) →
  attempt env st' ex_name base_symbol timeframe limit
  = attempt env st ex_name base_symbol timeframe limit.
Proof.
  intros Hcache. unfold attempt, find_perp_market_symbol. rewrite Hcache.
  destruct (perp_symbol_cache st !! (ex_id ex_name, base_symbol)); [done |].
  destruct (load_markets env (ex_id ex_name)) as [e | cat]; [done |].
  by destruct (choose_market cat base_symbol (ex_id ex_name)).
Qed.

Lemma provider_calls_cache env st st' ex_name base_symbol timeframe limit :
  perp_symbol_cache st' !! (ex_id ex_name, base_symbol)
  = perp_symbol_cache st !! (ex_id ex_name, base_symbol) →
  provider_calls env st' ex_name base_symbol timeframe limit
  = provider_calls env st ex_name base_symbol timeframe limit.
Proof.
  intros Hcache. unfold provider_calls, find_perp_market_symbol. rewrite Hcache.
  destruct (perp_symbol_cache st !! (ex_id ex_name, base_symbol)); [done |].
  destruct (load_markets env (ex_id ex_name)) as [e | cat]; [done |].
  by destruct (choose_market cat base_symbol (ex_id ex_name)).
Qed.

Lemma provider_calls_exchange env st ex_name base_symbol timeframe limit :
  Forall (λ c, call_exchange c = Some ex_name)
    (provider_calls env st ex_name base_symbol timeframe limit).
Proof.
  unfold provider_calls. apply Forall_app. split.
  - destruct (perp_symbol_cache st !! (ex_id ex_name, base_symbol));
      repeat constructor.
  - destruct (find_perp_market_symbol env st (ex_id ex_name) base_symbol).2;
      repeat constructor.
Qed.

(** Every attempt reaches the provider: a miss loads the catalog, a hit
    goes on to the candle request. *)
Lemma provider_calls_nonempty env st ex_name base_symbol timeframe limit :
  provider_calls env st ex_name base_symbol timeframe limit ≠ [].
Proof.
  unfold provider_calls.
  destruct (perp_symbol_cache st !! (ex_id ex_name, base_symbol)) as [cached|] eqn:Hc;
    [| done].
  by rewrite (find_perp_market_symbol_hit _ _ _ _ _ Hc).
Qed.

(** A failed attempt: the [try] block leaves with the exception, having
    touched nothing but the log and, possibly, the source's cache entry. *)
Lemma try_body_failure env st ex_name base_symbol timeframe limit e :
  attempt env st ex_name base_symbol timeframe limit = inl e →
  ∃ st1,
    try_body env st ex_name base_symbol timeframe limit = (st1, inl e)
    ∧ pinned_exchange st1 = pinned_exchange st
    ∧ cooldown_until st1 = cooldown_until st
    ∧ clock_reads st1 = clock_reads st
    ∧ (∀ key, key ≠ (ex_id ex_name, base_symbol) →
         perp_symbol_cache st1 !! key = perp_symbol_cache st !! key)
    ∧ calls st1 = calls st ++ provider_calls env st ex_name base_symbol timeframe limit.
Proof.
  unfold attempt, try_body, provider_calls.
  pose proof (find_perp_market_symbol_frame env st (ex_id ex_name) base_symbol) as Hframe.
  pose proof (find_perp_market_symbol_calls env st (ex_id ex_name) base_symbol) as Hcalls.
  destruct (find_perp_market_symbol env st (ex_id ex_name) base_symbol) as [st1 [e1 | m]].
  - cbn in *. intros [= ->]. exists st1.
    destruct Hframe as (? & ? & ? & ?). repeat split; try done.
    by rewrite app_nil_r.
  - cbn in *.
    destruct (fetch_ohlcv env (ex_id ex_name) m timeframe limit) as [e2 | cs]; [| done].
    intros [= ->]. eexists. split; [reflexivity |].
    destruct Hframe as (? & ? & ? & ?). cbn. repeat split; try done.
    rewrite Hcalls. by rewrite <- app_assoc.
Qed.

(** A successful attempt: the pin is written, and the failover message
    follows the provider calls when the old pin asks for it. *)
Lemma try_body_success env st ex_name base_symbol timeframe limit market_symbol candles :
  attempt env st ex_name base_symbol timeframe limit = inr (market_symbol, candles) →
  ∃ st1,
    try_body env st ex_name base_symbol timeframe limit
    = (st1, inr (ex_name, market_symbol, candles))
    ∧ pinned_exchange st1 = <[(base_symbol, timeframe) := ex_name]> (pinned_exchange st)
    ∧ calls st1
      = calls st ++ provider_calls env st ex_name base_symbol timeframe limit
        ++ failover_calls (pinned_exchange st !! (base_symbol, timeframe))
             base_symbol timeframe ex_name.
Proof.
  unfold attempt, try_body, provider_calls.
  pose proof (find_perp_market_symbol_frame env st (ex_id ex_name) base_symbol) as Hframe.
  pose proof (find_perp_market_symbol_calls env st (ex_id ex_name) base_symbol) as Hcalls.
  destruct (find_perp_market_symbol env st (ex_id ex_name) base_symbol) as [st1 [e1 | m]];
    [done |].
  cbn in *.
  destruct (fetch_ohlcv env (ex_id ex_name) m timeframe limit) as [e2 | cs]; [done |].
  intros [= -> ->]. eexists. split; [reflexivity |].
  destruct Hframe as (Hpin & _). rewrite Hpin. unfold failover_calls.
  destruct (pinned_exchange st !! (base_symbol, timeframe)) as [p|];
    [destruct (negb (String.eqb p "") && negb (String.eqb p ex_name)) |];
    cbn; rewrite Hpin, Hcalls, <- ?app_assoc; cbn; by rewrite ?app_nil_r.
Qed.

(** What the handler leaves alone. *)
Lemma except_body_frame cfg env st ex_name base_symbol e :
  let st' := except_body cfg env st ex_name base_symbol e in
  pinned_exchange st' = pinned_exchange st
  ∧ calls st' = calls st
  ∧ (∀ key, key ≠ (ex_id ex_name, base_symbol) →
       perp_symbol_cache st' !! key = perp_symbol_cache st !! key).
Proof.
  unfold except_body.
  destruct (is_recoverable e); cbn;
    destruct (isinstance_BadSymbol (exc_type e)); cbn; try done;
    destruct (Str.contains "symbol" _ || Str.contains "market" _); cbn;
    repeat split; try done; intros key Hkey; by rewrite lookup_delete_ne.
Qed.

(** ** The fetch loop *)

Section fetch_loop.
Variable cfg : Config.
Variable env : Env.
Variables base_symbol timeframe : string.
Variable limit : nat.

(** A failed turn hands the rest of the order to the loop, in a state that
    differs from the one before the turn only in the log, in the cooldown
    and in what belongs to the failed source. *)
Lemma failed_turn st ex_name e order tried last_err :
  attempt env st ex_name base_symbol timeframe limit = inl e →
  let st2 := after_failure cfg env st ex_name base_symbol timeframe limit e in
  fetch_loop cfg env base_symbol timeframe limit (ex_name :: order) st tried last_err
  = fetch_loop cfg env base_symbol timeframe limit order st2 (tried ++ [ex_name]) (Some e)
  ∧ pinned_exchange st2 = pinned_exchange st
  ∧ calls st2 = calls st ++ provider_calls env st ex_name base_symbol timeframe limit
  ∧ (∀ other, other ≠ ex_name →
       perp_symbol_cache st2 !! (ex_id other, base_symbol)
       = perp_symbol_cache st !! (ex_id other, base_symbol)).
Proof.
  intros Hfail st2.
  destruct (try_body_failure _ _ _ _ _ _ _ Hfail)
    as (st1 & Htry & Hpin & _ & _ & Hcache & Hcalls).
  subst st2. unfold after_failure. cbn [fetch_loop]. rewrite Htry. cbn [fst].
  destruct (except_body_frame cfg env st1 ex_name base_symbol e)
    as (Hpin' & Hcalls' & Hcache').
  split; [done |]. split; [congruence |]. split; [congruence |].
  intros other Hother.
  rewrite Hcache', Hcache; [done | |]; unfold ex_id; congruence.
Qed.

Lemma attempt_error_cache st st' ex_name :
  perp_symbol_cache st' !! (ex_id ex_name, base_symbol)
  = perp_symbol_cache st !! (ex_id ex_name, base_symbol) →
  attempt_error env st' base_symbol timeframe limit ex_name
  = attempt_error env st base_symbol timeframe limit ex_name.
Proof. intros H. unfold attempt_error. by rewrite (attempt_cache _ _ _ _ _ _ _ H). Qed.

Lemma turns_calls_cache st st' sources :
  (∀ x, x ∈ sources →
     perp_symbol_cache st' !! (ex_id x, base_symbol)
     = perp_symbol_cache st !! (ex_id x, base_symbol)) →
  turns_calls env st' base_symbol timeframe limit sources
  = turns_calls env st base_symbol timeframe limit sources.
Proof.
  unfold turns_calls. induction sources as [|x xs IH]; intros Hcache; [done |].
  cbn. rewrite IH by (intros y Hy; apply Hcache; by right).
  rewrite (provider_calls_cache env st st') by (apply Hcache; by left). done.
Qed.

(** When every source of the order fails, the loop tries them all, raises
    with the whole order and the error of its last source, and leaves the
    pins as they were. *)
Lemma fetch_loop_all_fail order :
  ∀ st tried last_err,
    NoDup order →
    (∀ x, x ∈ order → is_Some (attempt_error env st base_symbol timeframe limit x)) →
    ∃ st',
      fetch_loop cfg env base_symbol timeframe limit order st tried last_err
      = (st', inl (NoExchangeResponded base_symbol timeframe (tried ++ order)
                     (from_option Some last_err
                        (last_attempt_error env st base_symbol timeframe limit order))))
      ∧ pinned_exchange st' = pinned_exchange st
      ∧ calls st' = calls st ++ turns_calls env st base_symbol timeframe limit order.
Proof.
  induction order as [|x xs IH]; intros st tried last_err Hnd Hfail.
  - exists st. cbn. by rewrite !app_nil_r.
  - apply NoDup_cons in Hnd as [Hx Hnd].
    destruct (Hfail x) as [e He]; [by left |].
    assert (Hatt : attempt env st x base_symbol timeframe limit = inl e).
    { unfold attempt_error in He.
      destruct (attempt env st x base_symbol timeframe limit); congruence. }
    destruct (failed_turn st x e xs tried last_err Hatt)
      as (Hloop & Hpin & Hcalls & Hcache).
    set (st2 := after_failure cfg env st x base_symbol timeframe limit e) in *.
    assert (Hcache' : ∀ y, y ∈ xs →
              perp_symbol_cache st2 !! (ex_id y, base_symbol)
              = perp_symbol_cache st !! (ex_id y, base_symbol)).
    { intros y Hy. apply Hcache. intros ->. done. }
    destruct (IH st2 (tried ++ [x]) (Some e) Hnd) as (st' & Hres & Hpin' & Hcalls').
    { intros y Hy. rewrite (attempt_error_cache st) by auto. apply Hfail. by right. }
    exists st'. rewrite Hloop, Hres. split; [| split].
    + rewrite <- app_assoc. cbn [app]. do 3 f_equal.
      unfold last_attempt_error.
      destruct xs as [|y ys]; [by cbn; rewrite He |].
      change (last (x :: y :: ys)) with (last (y :: ys)).
      destruct (last (y :: ys)) as [z|] eqn:Hlast; [| by apply last_None in Hlast].
      cbn.
      rewrite (attempt_error_cache st) by (apply Hcache', last_Some_elem_of, Hlast).
      destruct (Hfail z) as [ez Hez]; [right; by apply last_Some_elem_of |].
      by rewrite Hez.
    + congruence.
    + rewrite Hcalls', Hcalls, (turns_calls_cache st) by done.
      by rewrite <- app_assoc.
Qed.

(** When the sources of [before] fail and [winner] succeeds, the loop
    returns at [winner]: the later sources are not reached. *)
Lemma fetch_loop_first_success before :
  ∀ winner later market_symbol candles st tried last_err,
    NoDup (before ++ winner :: later) →
    (∀ x, x ∈ before → is_Some (attempt_error env st base_symbol timeframe limit x)) →
    attempt env st winner base_symbol timeframe limit = inr (market_symbol, candles) →
    ∃ st',
      fetch_loop cfg env base_symbol timeframe limit (before ++ winner :: later)
        st tried last_err
      = (st', inr (winner, market_symbol, candles))
      ∧ pinned_exchange st'
        = <[(base_symbol, timeframe) := winner]> (pinned_exchange st)
      ∧ calls st'
        = calls st
          ++ turns_calls env st base_symbol timeframe limit (before ++ [winner])
          ++ failover_calls (pinned_exchange st !! (base_symbol, timeframe))
               base_symbol timeframe winner.
Proof.
  induction before as [|x xs IH];
    intros winner later market_symbol candles st tried last_err Hnd Hfail Hwin.
  - destruct (try_body_success _ _ _ _ _ _ _ _ Hwin) as (st1 & Htry & Hpin & Hcalls).
    exists st1. cbn [app fetch_loop]. rewrite Htry. split; [done |]. split; [done |].
    rewrite Hcalls. unfold turns_calls. cbn. by rewrite app_nil_r.
  - cbn [app] in Hnd. apply NoDup_cons in Hnd as [Hx Hnd].
    destruct (Hfail x) as [e He]; [by left |].
    assert (Hatt : attempt env st x base_symbol timeframe limit = inl e).
    { unfold attempt_error in He.
      destruct (attempt env st x base_symbol timeframe limit); congruence. }
    destruct (failed_turn st x e (xs ++ winner :: later) tried last_err Hatt)
      as (Hloop & Hpin & Hcalls & Hcache).
    set (st2 := after_failure cfg env st x base_symbol timeframe limit e) in *.
    assert (Hcache' : ∀ y, y ∈ xs ++ winner :: later →
              perp_symbol_cache st2 !! (ex_id y, base_symbol)
              = perp_symbol_cache st !! (ex_id y, base_symbol)).
    { intros y Hy. apply Hcache. intros ->. done. }
    destruct (IH winner later market_symbol candles st2 (tried ++ [x]) (Some e) Hnd)
      as (st' & Hres & Hpin' & Hcalls').
    { intros y Hy. rewrite (attempt_error_cache st).
      - apply Hfail. by right.
      - apply Hcache'. apply elem_of_app. by left. }
    { rewrite (attempt_cache env st); [done |].
      apply Hcache'. apply elem_of_app. right. by left. }
    exists st'. cbn [app]. rewrite Hloop, Hres. split; [done |]. split; [congruence |].
    rewrite Hcalls', Hcalls, Hpin, (turns_calls_cache st).
    + unfold turns_calls. cbn. by rewrite <- !app_assoc.
    + intros y Hy. apply Hcache'. apply elem_of_app in Hy as [Hy | Hy].
      * apply elem_of_app. by left.
      * apply list_elem_of_singleton in Hy as ->. apply elem_of_app. right. by left.
Qed.

(** A source that succeeds in the order has a first one before it. *)
Lemma first_success_split st order :
  (∃ x, x ∈ order ∧ attempt_error env st base_symbol timeframe limit x = None) →
  ∃ before winner later market_symbol candles,
    order = before ++ winner :: later
    ∧ (∀ x, x ∈ before → is_Some (attempt_error env st base_symbol timeframe limit x))
    ∧ attempt env st winner base_symbol timeframe limit = inr (market_symbol, candles).
Proof.
  induction order as [|y ys IH]; intros (x & Hx & Hok).
  - by apply elem_of_nil in Hx.
  - destruct (attempt env st y base_symbol timeframe limit) as [e | [m cs]] eqn:Hy.
    + destruct IH as (before & winner & later & m & cs & -> & Hbefore & Hwin).
      { exists x. split; [| done]. apply elem_of_cons in Hx as [-> | Hx]; [| done].
        unfold attempt_error in Hok. by rewrite Hy in Hok. }
      exists (y :: before), winner, later, m, cs. split; [done |]. split; [| done].
      intros z [-> | Hz]%elem_of_cons; [| by apply Hbefore].
      unfold attempt_error. rewrite Hy. by eexists.
    + exists [], y, ys, m, cs. split; [done |]. split; [| done].
      intros z Hz. by apply elem_of_nil in Hz.
Qed.

End fetch_loop.

(** ** [fetch_ohlcv_pinned] *)

Lemma elem_of_turns_calls env st base_symbol timeframe limit sources c :
  c ∈ turns_calls env st base_symbol timeframe limit sources →
  ∃ x, x ∈ sources ∧ call_exchange c = Some x.
Proof.
  unfold turns_calls. intros (x & Hc & Hx)%list_elem_of_bind.
  exists x. split; [done |].
  pose proof (provider_calls_exchange env st x base_symbol timeframe limit) as Hall.
  rewrite Forall_forall in Hall. by apply Hall.
Qed.

Lemma turns_calls_reach env st base_symbol timeframe limit sources x :
  x ∈ sources →
  ∃ c, c ∈ turns_calls env st base_symbol timeframe limit sources
       ∧ call_exchange c = Some x.
Proof.
  intros Hx.
  pose proof (provider_calls_exchange env st x base_symbol timeframe limit) as Hall.
  pose proof (provider_calls_nonempty env st x base_symbol timeframe limit) as Hne.
  destruct (provider_calls env st x base_symbol timeframe limit) as [|c cs] eqn:Hpc;
    [done |].
  exists c. split.
  - unfold turns_calls. apply list_elem_of_bind. exists x. split; [| done].
    rewrite Hpc. by left.
  - by apply Forall_cons in Hall as [? _].
Qed.

Lemma elem_of_failover_calls prev_pin base_symbol timeframe ex_name c :
  c ∈ failover_calls prev_pin base_symbol timeframe ex_name
  ↔ ∃ p, prev_pin = Some p ∧ p ≠ "" ∧ p ≠ ex_name
         ∧ c = Send (MsgFailover base_symbol timeframe p ex_name).
Proof.
  unfold failover_calls. destruct prev_pin as [p|].
  - destruct (String.eqb_spec p "") as [-> | Hne]; cbn.
    + rewrite elem_of_nil. split; [done |]. by intros (? & [= <-] & ? & _).
    + destruct (String.eqb_spec p ex_name) as [-> | Hne']; cbn.
      * rewrite elem_of_nil. split; [done |]. by intros (? & [= <-] & _ & ? & _).
      * rewrite list_elem_of_singleton. split.
        -- intros ->. by exists p.
        -- by intros (? & [= <-] & _ & _ & ->).
  - rewrite elem_of_nil. split; [done |]. by intros (? & ? & _).
Qed.

(** The fetcher is its loop, run over the order computed at the time read
    on entry. *)
Lemma fetch_ohlcv_pinned_unfold cfg env st base_symbol timeframe limit :
  fetch_ohlcv_pinned cfg env st base_symbol timeframe limit
  = fetch_loop cfg env base_symbol timeframe limit
      (exchange_order_at (time_time env (clock_reads st)) st base_symbol timeframe)
      (read_clock env st).2 [] None.
Proof. reflexivity. Qed.

Lemma all_fail_or_some_success env st base_symbol timeframe limit (order : list string) :
  (∀ x, x ∈ order → is_Some (attempt_error env st base_symbol timeframe limit x))
  ∨ (∃ x, x ∈ order ∧ attempt_error env st base_symbol timeframe limit x = None).
Proof.
  induction order as [|y ys [IH | (x & Hx & Hok)]].
  - left. intros x Hx. by apply elem_of_nil in Hx.
  - destruct (attempt_error env st base_symbol timeframe limit y) as [e|] eqn:Hy.
    + left. intros x [-> | Hx]%elem_of_cons; [by rewrite Hy | by apply IH].
    + right. exists y. split; [by left | done].
  - right. exists x. split; [by right | done].
Qed.

(** Whatever the outcome, a fetch keeps the pins among [EXCHANGES]. *)
Lemma fetch_ohlcv_pinned_pins_known cfg env st base_symbol timeframe limit :
  pins_known st →
  pins_known (fetch_ohlcv_pinned cfg env st base_symbol timeframe limit).1.
Proof.
  intros Hpins. rewrite fetch_ohlcv_pinned_unfold.
  set (order := exchange_order_at (time_time env (clock_reads st)) st
                  base_symbol timeframe).
  destruct (all_fail_or_some_success env st base_symbol timeframe limit order)
    as [Hall | Hsome].
  - destruct (fetch_loop_all_fail cfg env base_symbol timeframe limit order
                (read_clock env st).2 [] None)
      as (st' & Hres & Hpin & _).
    { apply NoDup_exchange_order_at. }
    { intros x Hx. rewrite (attempt_error_cache _ _ _ _ st) by done. by apply Hall. }
    rewrite Hres. intros key p. cbn [fst]. rewrite Hpin. apply Hpins.
  - destruct (first_success_split env base_symbol timeframe limit st order Hsome)
      as (before & winner & later & m & cs & Horder & Hbefore & Hwin).
    destruct (fetch_loop_first_success cfg env base_symbol timeframe limit
                before winner later m cs (read_clock env st).2 [] None)
      as (st' & Hres & Hpin & _).
    { rewrite <- Horder. apply NoDup_exchange_order_at. }
    { intros x Hx. rewrite (attempt_error_cache _ _ _ _ st) by done. by apply Hbefore. }
    { by rewrite (attempt_cache env st). }
    rewrite Horder, Hres. intros key p. cbn [fst]. rewrite Hpin.
    intros [[_ <-] | [_ Hp]]%lookup_insert_Some; [| by apply Hpins in Hp].
    apply (elem_of_exchange_order_at (time_time env (clock_reads st)) st
             base_symbol timeframe).
    fold order. rewrite Horder. apply elem_of_app. right. by left.
Qed.

(** C1: when some source of the order succeeds, the fetcher returns the
    first source of the order whose resolution and candle request both
    succeed, with the resolved symbol and the candles; it makes no call to a
    later source; the pin of the pair becomes that source; and a failover
    message is sent iff there was a pin for the pair naming another source,
    that message naming both. *)
Theorem fetch_returns_first_success cfg env st base_symbol timeframe limit :
  pins_known st →
  let order :=
    exchange_order_at (time_time env (clock_reads st)) st base_symbol timeframe in
  let prev_pin := pinned_exchange st !! (base_symbol, timeframe) in
  (∃ x, x ∈ order ∧ attempt_error env st base_symbol timeframe limit x = None) →
  ∃ before winner later market_symbol candles st',
    order = before ++ winner :: later
    ∧ (∀ x, x ∈ before →
         is_Some (attempt_error env st base_symbol timeframe limit x))
    ∧ attempt env st winner base_symbol timeframe limit = inr (market_symbol, candles)
    ∧ fetch_ohlcv_pinned cfg env st base_symbol timeframe limit
      = (st', inr (winner, market_symbol, candles))
    ∧ (∀ c x, c ∈ calls_since st st' → call_exchange c = Some x →
         x ∈ before ++ [winner] ∧ x ∉ later)
    ∧ pinned_exchange st'
      = <[(base_symbol, timeframe) := winner]> (pinned_exchange st)
    ∧ (∀ msg, Send msg ∈ calls_since st st'
              ↔ ∃ p, prev_pin = Some p ∧ p ≠ winner
                     ∧ msg = MsgFailover base_symbol timeframe p winner)
    ∧ pins_known st'.
Proof.
  intros Hpins order prev_pin Hsome.
  destruct (first_success_split env base_symbol timeframe limit st order Hsome)
    as (before & winner & later & m & cs & Horder & Hbefore & Hwin).
  assert (Hnd : NoDup (before ++ winner :: later)).
  { rewrite <- Horder. apply NoDup_exchange_order_at. }
  destruct (fetch_loop_first_success cfg env base_symbol timeframe limit
              before winner later m cs (read_clock env st).2 [] None Hnd)
    as (st' & Hres & Hpin & Hcalls).
  { intros x Hx. rewrite (attempt_error_cache _ _ _ _ st) by done. by apply Hbefore. }
  { by rewrite (attempt_cache env st). }
  cbn [read_clock snd pinned_exchange calls] in Hpin, Hcalls.
  rewrite (turns_calls_cache _ _ _ _ st) in Hcalls by done.
  fold prev_pin in Hcalls. apply calls_since_app in Hcalls.
  exists before, winner, later, m, cs, st'.
  split; [done |]. split; [done |]. split; [done |].
  split; [by rewrite fetch_ohlcv_pinned_unfold; fold order; rewrite Horder |].
  split; [| split; [done |]; split].
  - intros c x Hc Hx. rewrite Hcalls in Hc.
    apply elem_of_app in Hc as [Hc | Hc].
    + apply elem_of_turns_calls in Hc as (y & Hy & Hcy).
      assert (x = y) as -> by congruence. split; [done |].
      intros Hlater. apply NoDup_app in Hnd as (_ & Hdisj & Hnd).
      apply NoDup_cons in Hnd as [Hw _].
      apply elem_of_app in Hy as [Hy | ->%list_elem_of_singleton]; [| done].
      apply (Hdisj y Hy). by right.
    + apply elem_of_failover_calls in Hc as (p & _ & _ & _ & ->). done.
  - intros msg. rewrite Hcalls, elem_of_app, elem_of_failover_calls. split.
    + intros [Hc | (p & Hp & _ & Hne & [= ->])].
      * by apply elem_of_turns_calls in Hc as (y & _ & ?).
      * by exists p.
    + intros (p & Hp & Hne & ->). right. exists p.
      split; [done |]. split; [| done].
      intros ->. unfold prev_pin in Hp. apply Hpins in Hp.
      unfold EXCHANGES in Hp. rewrite !elem_of_cons, elem_of_nil in Hp.
      destruct Hp as [? | [? | [? | []]]]; discriminate.
  - intros key p. rewrite Hpin. intros [[_ <-] | [_ Hp]]%lookup_insert_Some.
    + apply (elem_of_exchange_order_at (time_time env (clock_reads st)) st
               base_symbol timeframe).
      fold order. rewrite Horder. apply elem_of_app. right. by left.
    + by apply Hpins in Hp.
Qed.

(** C4: when no source of the order succeeds, the empty order included,
    the fetcher raises with the sources it went through, which are all those
    of the order and in that order, and with the error of the last of them
    ([None] for no source); the calls it makes are those of these turns,
    one source after the other; every pin is as before. *)
Theorem fetch_exhausted cfg env st base_symbol timeframe limit :
  let order :=
    exchange_order_at (time_time env (clock_reads st)) st base_symbol timeframe in
  (∀ x, x ∈ order → is_Some (attempt_error env st base_symbol timeframe limit x)) →
  ∃ st',
    fetch_ohlcv_pinned cfg env st base_symbol timeframe limit
    = (st', inl (NoExchangeResponded base_symbol timeframe order
                   (last_attempt_error env st base_symbol timeframe limit order)))
    ∧ pinned_exchange st' = pinned_exchange st
    ∧ calls_since st st' = turns_calls env st base_symbol timeframe limit order
    ∧ (∀ x, x ∈ order ↔ ∃ c, c ∈ calls_since st st' ∧ call_exchange c = Some x).
Proof.
  intros order Hfail.
  destruct (fetch_loop_all_fail cfg env base_symbol timeframe limit order
              (read_clock env st).2 [] None)
    as (st' & Hres & Hpin & Hcalls).
  { apply NoDup_exchange_order_at. }
  { intros x Hx. rewrite (attempt_error_cache _ _ _ _ st) by done. by apply Hfail. }
  cbn [read_clock snd pinned_exchange calls] in Hpin, Hcalls.
  rewrite (turns_calls_cache _ _ _ _ st) in Hcalls by done.
  apply calls_since_app in Hcalls.
  exists st'. split; [| split; [done |]; split; [done |]].
  - rewrite fetch_ohlcv_pinned_unfold. fold order. rewrite Hres. cbn [app].
    do 3 f_equal. unfold last_attempt_error.
    destruct (last order) as [z|]; [| done]. cbn.
    rewrite (attempt_error_cache _ _ _ _ st) by done.
    by destruct (attempt_error env st base_symbol timeframe limit z).
  - intros x. rewrite Hcalls. split.
    + apply turns_calls_reach.
    + intros (c & Hc & Hx). apply elem_of_turns_calls in Hc as (y & Hy & Hcy).
      congruence.
Qed.

Lemma pins_known_initial : pins_known initial_state.
Proof. intros key p Hp. cbn in Hp. by rewrite lookup_empty in Hp. Qed.

(** bybit is unreachable and kucoin answers: kucoin is returned and pinned,
    and no message is sent since there was no pin. *)
Lemma fetch_returns_first_success_witness :
  ∃ st',
    fetch_ohlcv_pinned default_config sample_env initial_state "BTC/USDT" "5m" 100
    = (st', inr ("kucoin", "BTC/USDT:USDT", two_candles))
    ∧ pinned_exchange st' = <[("BTC/USDT", "5m") := "kucoin"]> ∅
    ∧ (∀ msg, Send msg ∉ calls_since initial_state st').
Proof.
  destruct (fetch_returns_first_success default_config sample_env initial_state
              "BTC/USDT" "5m" 100)
    as (before & winner & later & m & cs & st' & _ & _ & _ & Hfetch
        & _ & Hpin & Hmsg & _).
  { exact pins_known_initial. }
  { exists "kucoin". split; [| vm_compute; reflexivity].
    apply elem_of_exchange_order_at. split; [| vm_compute; discriminate].
    apply (bool_decide_unpack _). vm_compute. exact I. }
  assert (Hsnd : (fetch_ohlcv_pinned default_config sample_env initial_state
                    "BTC/USDT" "5m" 100).2
                 = inr ("kucoin", "BTC/USDT:USDT", two_candles))
    by (vm_compute; reflexivity).
  rewrite Hfetch in Hsnd. cbn [snd] in Hsnd. injection Hsnd as -> -> ->.
  exists st'. split; [done |]. split; [done |].
  intros msg Hsend. apply Hmsg in Hsend as (p & Hp & _). discriminate.
Defined.

(** The calls of that fetch: okx, after the winner, is not reached. *)
Example fetch_first_success_calls :
  calls (fetch_ohlcv_pinned default_config sample_env initial_state
           "BTC/USDT" "5m" 100).1
  = [LoadMarkets "bybit"; LoadMarkets "kucoin";
     FetchOhlcv "kucoin" "BTC/USDT:USDT" "5m" 100].
Proof. vm_compute. reflexivity. Qed.

(** Nothing answers: the three sources are tried in priority order, the
    error is the last timeout, no pin is written. *)
Lemma fetch_exhausted_witness :
  ∃ st',
    fetch_ohlcv_pinned default_config down_env initial_state "BTC/USDT" "5m" 100
    = (st', inl (NoExchangeResponded "BTC/USDT" "5m" ["bybit"; "kucoin"; "okx"]
                   (Some (Exc RequestTimeout "request timed out"))))
    ∧ pinned_exchange st' = ∅.
Proof.
  destruct (fetch_exhausted default_config down_env initial_state "BTC/USDT" "5m" 100)
    as (st' & Hres & Hpin & _).
  { intros x _. unfold attempt_error, attempt, find_perp_market_symbol. cbn.
    rewrite lookup_empty. cbn. by eexists. }
  exists st'. split; [| done]. rewrite Hres. vm_compute. reflexivity.
Defined.

(** Every source in cooldown: the order is empty, nothing is tried, and the
    error carries no source and no last error. *)
Example fetch_all_cooling :
  fetch_ohlcv_pinned default_config sample_env cooled_state "BTC/USDT" "5m" 100
  = ((read_clock sample_env cooled_state).2,
     inl (NoExchangeResponded "BTC/USDT" "5m" [] None)).
Proof. vm_compute. reflexivity. Qed.

(** The specification's scenario, second cycle: kucoin is pinned and times
    out, okx answers; the pin moves to okx and the failover message names
    kucoin and okx.  bybit is still cooling and is not tried. *)
Example fetch_failover_message :
  let st1 := (fetch_ohlcv_pinned default_config sample_env initial_state
                "BTC/USDT" "5m" 100).1 in
  let r := fetch_ohlcv_pinned default_config later_env st1 "BTC/USDT" "5m" 100 in
  r.2 = inr ("okx", "BTC/USDT:USDT", two_candles)
  ∧ pinned_exchange r.1 !! ("BTC/USDT", "5m") = Some "okx"
  ∧ calls_since st1 r.1
    = [FetchOhlcv "kucoin" "BTC/USDT:USDT" "5m" 100;
       LoadMarkets "okx";
       FetchOhlcv "okx" "BTC/USDT:USDT" "5m" 100;
       Send (MsgFailover "BTC/USDT" "5m" "kucoin" "okx")].
Proof. vm_compute. repeat split; reflexivity. Qed.

(** ** The handler and the cache *)

Lemma except_body_cache cfg env st ex_name base_symbol e :
  perp_symbol_cache (except_body cfg env st ex_name base_symbol e)
  = if isinstance_BadSymbol (exc_type e) then perp_symbol_cache st
    else if mentions_market e
         then delete (ex_id ex_name, base_symbol) (perp_symbol_cache st)
         else perp_symbol_cache st.
Proof.
  unfold except_body, mentions_market.
  destruct (is_recoverable e); cbn;
    destruct (isinstance_BadSymbol (exc_type e)); cbn; try done;
    by destruct (Str.contains "symbol" _ || Str.contains "market" _).
Qed.

(** C3, as the code has it: when an attempt fails with an error whose
    text speaks of a symbol or a market, the loop goes on with the next
    source; the cache entry of the source for the base symbol is evicted
    unless the error is a [BadSymbol], which leaves the cache as the attempt
    left it; the source is put in cooldown exactly when [is_recoverable]
    holds of the error, and its cooldown is untouched otherwise. *)
Theorem stale_mapping_eviction cfg env st ex_name base_symbol timeframe limit e
    order tried last_err :
  attempt env st ex_name base_symbol timeframe limit = inl e →
  mentions_market e = true →
  let st1 := (try_body env st ex_name base_symbol timeframe limit).1 in
  let st2 := after_failure cfg env st ex_name base_symbol timeframe limit e in
  fetch_loop cfg env base_symbol timeframe limit (ex_name :: order) st tried last_err
  = fetch_loop cfg env base_symbol timeframe limit order st2 (tried ++ [ex_name]) (Some e)
  ∧ (isinstance_BadSymbol (exc_type e) = false →
       perp_symbol_cache st2 !! (ex_id ex_name, base_symbol) = None)
  ∧ (isinstance_BadSymbol (exc_type e) = true →
       perp_symbol_cache st2 = perp_symbol_cache st1)
  ∧ (is_recoverable e = false → cooldown_until st2 = cooldown_until st)
  ∧ (is_recoverable e = true →
       cooldown_until st2
       = <[ex_name := time_time env (clock_reads st) + COOLDOWN_SECONDS cfg]>
           (cooldown_until st)).
Proof.
  intros Hfail Hmsg st1 st2.
  destruct (failed_turn cfg env base_symbol timeframe limit st ex_name e
              order tried last_err Hfail) as (Hloop & _).
  destruct (try_body_failure _ _ _ _ _ _ _ Hfail)
    as (st1' & Htry & _ & Hcool & Hclock & _).
  assert (st1' = st1) as -> by (subst st1; by rewrite Htry).
  subst st2. unfold after_failure. fold st1.
  split; [exact Hloop |]. split; [| split; [| split]].
  - intros Hbad. rewrite except_body_cache, Hbad, Hmsg. apply lookup_delete_eq.
  - intros Hbad. by rewrite except_body_cache, Hbad.
  - intros Hrec. by rewrite except_body_no_cooldown.
  - intros Hrec. rewrite except_body_cooldown by done. by rewrite Hclock, Hcool.
Qed.

(** A text that speaks of a market in an error that is not recoverable:
    eviction, and the cooldown map is the initial one. *)
Lemma stale_mapping_eviction_witness :
  perp_symbol_cache
    (after_failure default_config sample_env initial_state "okx" "BTC/USDT" "5m" 100
       (Exc ExchangeError "okx does not have market symbol BTC/USDT:USDT"))
    !! (ex_id "okx", "BTC/USDT") = None
  ∧ cooldown_until
      (after_failure default_config sample_env initial_state "okx" "BTC/USDT" "5m" 100
         (Exc ExchangeError "okx does not have market symbol BTC/USDT:USDT"))
    = cooldown_until initial_state.
Proof.
  pose proof (stale_mapping_eviction default_config sample_env initial_state
                "okx" "BTC/USDT" "5m" 100
                (Exc ExchangeError "okx does not have market symbol BTC/USDT:USDT")
                [] [] None eq_refl eq_refl) as H.
  destruct H as (_ & Hevict & _ & Hcool & _).
  split; [apply Hevict | apply Hcool]; reflexivity.
Defined.

(** Without the two provisos the statement fails: the network error of
    bybit carries the request URL, which speaks of a market, and bybit is
    put in cooldown. *)
Lemma stale_mapping_cooldown_placed :
  attempt sample_env initial_state "bybit" "BTC/USDT" "5m" 100 = inl unreachable
  ∧ mentions_market unreachable = true
  ∧ cooldown_until initial_state !! "bybit" = Some 0
  ∧ cooldown_until
      (after_failure default_config sample_env initial_state "bybit" "BTC/USDT" "5m" 100
         unreachable) !! "bybit" = Some 1120.
Proof. vm_compute. repeat split; reflexivity. Qed.

(** The other proviso: a [BadSymbol] raised by the candle request on a
    cached symbol speaks of a symbol, and the cached entry stays. *)
Example bad_symbol_keeps_cache :
  let e := Exc BadSymbol "bybit does not have market symbol BTC/USDT:USDT" in
  attempt renamed_env initial_state "bybit" "BTC/USDT" "5m" 100 = inl e
  ∧ mentions_market e = true
  ∧ perp_symbol_cache
      (after_failure default_config renamed_env initial_state "bybit" "BTC/USDT" "5m" 100 e)
    !! ("bybit", "BTC/USDT") = Some "BTC/USDT:USDT".
Proof. vm_compute. repeat split; reflexivity. Qed.

(** ** [get_rsi] *)

Lemma iloc_from_end {A} (s : list A) (k : nat) :
  (1 ≤ k)%nat →
  iloc s (- Z.of_nat k)
  = if decide (k ≤ length s)%nat then s !! (length s - k)%nat else None.
Proof.
  intros Hk. unfold iloc.
  destruct (Z.ltb_spec (- Z.of_nat k) 0) as [_ | ?]; [| lia].
  case_decide as Hle.
  - destruct (Z.leb_spec 0 (- Z.of_nat k + Z.of_nat (length s))) as [_ | ?]; [| lia].
    destruct (Z.ltb_spec (- Z.of_nat k + Z.of_nat (length s)) (Z.of_nat (length s)))
      as [_ | ?]; [| lia].
    cbn. f_equal. lia.
  - destruct (Z.leb_spec 0 (- Z.of_nat k + Z.of_nat (length s))) as [? | _]; [lia |].
    done.
Qed.

(** C2, as the code has it: [get_rsi] has no length test of its own.
    With an indicator that answers a series as long as the closes, a fetch
    of fewer than two candles ends in the [IndexError] of [rsi.iloc[-2]] and
    no values; a fetch of two candles or more, fewer than sixteen included,
    returns the last two entries of the indicator series. *)
Theorem get_rsi_needs_two_candles cfg env st base_symbol tf st1 ex_name market_symbol
    candles :
  (∀ window closes, length (rsi_series env window closes) = length closes) →
  fetch_ohlcv_pinned cfg env st base_symbol tf 100
  = (st1, inr (ex_name, market_symbol, candles)) →
  let rsi := rsi_series env 14 (c_c <$> candles) in
  ((length candles < 2)%nat →
     get_rsi cfg env st base_symbol tf = (st1, inl IlocOutOfBounds))
  ∧ ((2 ≤ length candles)%nat →
     ∃ prev curr,
       rsi !! (length candles - 2)%nat = Some prev
       ∧ rsi !! (length candles - 1)%nat = Some curr
       ∧ get_rsi cfg env st base_symbol tf
         = (st1, inr (ex_name, market_symbol, prev, curr))).
Proof.
  intros Hlen Hfetch rsi.
  assert (Hrsi : length rsi = length candles).
  { subst rsi. by rewrite Hlen, length_fmap. }
  unfold get_rsi. rewrite Hfetch. fold rsi.
  change (-2) with (- Z.of_nat 2). change (-1) with (- Z.of_nat 1).
  rewrite !iloc_from_end by lia. rewrite Hrsi. split.
  - intros Hshort. by rewrite decide_False by lia.
  - intros Hlong. rewrite decide_True by lia. rewrite decide_True by lia.
    destruct (lookup_lt_is_Some_2 rsi (length candles - 2)) as [prev Hprev]; [lia |].
    destruct (lookup_lt_is_Some_2 rsi (length candles - 1)) as [curr Hcurr]; [lia |].
    exists prev, curr. by rewrite Hprev, Hcurr.
Qed.

Lemma nan_series_length window closes :
  length (nan_series window closes) = length closes.
Proof. unfold nan_series. apply length_fmap. Qed.

Lemma get_rsi_needs_two_candles_witness :
  ∃ prev curr,
    nan_series 14 (c_c <$> two_candles) !! (length two_candles - 2)%nat = Some prev
    ∧ nan_series 14 (c_c <$> two_candles) !! (length two_candles - 1)%nat = Some curr
    ∧ get_rsi default_config sample_env initial_state "BTC/USDT" "5m"
      = ((fetch_ohlcv_pinned default_config sample_env initial_state
            "BTC/USDT" "5m" 100).1,
         inr ("kucoin", "BTC/USDT:USDT", prev, curr)).
Proof.
  apply (get_rsi_needs_two_candles default_config sample_env initial_state
           "BTC/USDT" "5m" _ "kucoin" "BTC/USDT:USDT" two_candles).
  - exact nan_series_length.
  - vm_compute. reflexivity.
  - vm_compute. lia.
Defined.

(** Sixteen candles are not required: two candles are fewer, the fetch
    succeeds, and [get_rsi] returns a pair of values, here the two NaN of an
    indicator that has no value yet. *)
Lemma get_rsi_two_candles_returns :
  (fetch_ohlcv_pinned default_config sample_env initial_state "BTC/USDT" "5m" 100).2
  = inr ("kucoin", "BTC/USDT:USDT", two_candles)
  ∧ (length two_candles < 16)%nat
  ∧ (get_rsi default_config sample_env initial_state "BTC/USDT" "5m").2
    = inr ("kucoin", "BTC/USDT:USDT", nan, nan).
Proof. split; [| split]; [vm_compute; reflexivity | cbn; lia | vm_compute; reflexivity]. Qed.

(** * Further properties of the code *)

(** ** What a fetch leaves alone *)

Lemma try_body_frame env st ex_name base_symbol timeframe limit :
  let st1 := (try_body env st ex_name base_symbol timeframe limit).1 in
  cooldown_until st1 = cooldown_until st
  ∧ last_state st1 = last_state st
  ∧ clock_reads st1 = clock_reads st.
Proof.
  unfold try_body, find_perp_market_symbol.
  destruct (perp_symbol_cache st !! (ex_id ex_name, base_symbol)) as [cached|].
  - destruct (fetch_ohlcv env (ex_id ex_name) cached timeframe limit); [done |].
    cbn. destruct (pinned_exchange st !! (base_symbol, timeframe)) as [p|]; [| done].
    by destruct (negb (String.eqb p "") && negb (String.eqb p ex_name)).
  - destruct (load_markets env (ex_id ex_name)) as [e | cat]; [done |].
    destruct (choose_market cat base_symbol (ex_id ex_name)) as [e | chosen]; [done |].
    destruct (fetch_ohlcv env (ex_id ex_name) chosen timeframe limit); [done |].
    cbn. destruct (pinned_exchange st !! (base_symbol, timeframe)) as [p|]; [| done].
    by destruct (negb (String.eqb p "") && negb (String.eqb p ex_name)).
Qed.

Lemma except_body_last_state cfg env st ex_name base_symbol e :
  last_state (except_body cfg env st ex_name base_symbol e) = last_state st.
Proof.
  unfold except_body.
  destruct (is_recoverable e); cbn;
    destruct (isinstance_BadSymbol (exc_type e)); cbn; try done;
    by destruct (Str.contains "symbol" _ || Str.contains "market" _).
Qed.

Lemma after_failure_cooldown cfg env st ex_name base_symbol timeframe limit e :
  cooldown_until (after_failure cfg env st ex_name base_symbol timeframe limit e)
  = if is_recoverable e
    then <[ex_name := time_time env (clock_reads st) + COOLDOWN_SECONDS cfg]>
           (cooldown_until st)
    else cooldown_until st.
Proof.
  unfold after_failure.
  destruct (try_body_frame env st ex_name base_symbol timeframe limit)
    as (Hcool & _ & Hclock).
  destruct (is_recoverable e) eqn:Hrec.
  - rewrite except_body_cooldown by done. by rewrite Hcool, Hclock.
  - rewrite except_body_no_cooldown by done. exact Hcool.
Qed.

Section fetch_frame.
Variable cfg : Config.
Variable env : Env.
Variables base_symbol timeframe : string.
Variable limit : nat.

(** The loop, whatever its outcome: the stored RSI values are not touched,
    and the cooldown of a source moves only if the source is in the order
    and its attempt fails with a recoverable error. *)
Lemma fetch_loop_frame order :
  ∀ st tried last_err,
    NoDup order →
    let st' := (fetch_loop cfg env base_symbol timeframe limit order st tried last_err).1 in
    last_state st' = last_state st
    ∧ (∀ y,
         (∀ e, y ∈ order →
               attempt env st y base_symbol timeframe limit = inl e →
               is_recoverable e = false) →
         cooldown_until st' !! y = cooldown_until st !! y).
Proof.
  induction order as [|x xs IH]; intros st tried last_err Hnd; [done |].
  apply NoDup_cons in Hnd as [Hx Hnd].
  destruct (attempt env st x base_symbol timeframe limit) as [e | [m cs]] eqn:Hatt.
  - destruct (failed_turn cfg env base_symbol timeframe limit st x e xs tried last_err Hatt)
      as (Hloop & _ & _ & Hcache).
    rewrite Hloop.
    set (st2 := after_failure cfg env st x base_symbol timeframe limit e) in *.
    destruct (IH st2 (tried ++ [x]) (Some e) Hnd) as [Hlast Hcool].
    split.
    + rewrite Hlast. subst st2. unfold after_failure.
      rewrite except_body_last_state.
      by destruct (try_body_frame env st x base_symbol timeframe limit) as (_ & ? & _).
    + intros y Hy. rewrite Hcool.
      * subst st2. rewrite after_failure_cooldown.
        destruct (is_recoverable e) eqn:Hrec; [| done].
        destruct (decide (x = y)) as [<- | Hne]; [| by rewrite lookup_insert_ne].
        rewrite (Hy e) in Hrec; [done | by left | done].
      * intros e' Hin Hatt'. apply Hy; [by right |].
        rewrite <- Hatt'. symmetry. apply attempt_cache, Hcache. by intros ->.
  - destruct (try_body_success _ _ _ _ _ _ _ _ Hatt) as (st1 & Htry & _).
    pose proof (try_body_frame env st x base_symbol timeframe limit) as Hframe.
    cbn [fetch_loop]. rewrite Htry in *. cbn [fst] in *.
    destruct Hframe as (Hcool & Hlast & _). split; [done |].
    intros y _. by rewrite Hcool.
Qed.

End fetch_frame.



(** ** The steady state and the silent state *)

Lemma set_pinned_exchange_same st key p :
  pinned_exchange st !! key = Some p →
  set_pinned_exchange (insert key p) st = st.
Proof.
  intros Hp. destruct st as [pins cool lasts cache reads log].
  unfold set_pinned_exchange. cbn in *. f_equal. by apply insert_id.
Qed.

(** X2: the steady state.  When the pair is pinned to a source of
    [EXCHANGES] that is out of cooldown, whose symbol is cached and whose
    candle request succeeds, the fetch makes that one request and nothing
    else: no catalog load, no other exchange, no message, and the
    dictionaries are as before. *)
Theorem fetch_steady_state cfg env st base_symbol timeframe limit
    pin market_symbol candles :
  pinned_exchange st !! (base_symbol, timeframe) = Some pin →
  pin ∈ EXCHANGES →
  cooldown_of st pin ≤ time_time env (clock_reads st) →
  perp_symbol_cache st !! (ex_id pin, base_symbol) = Some market_symbol →
  fetch_ohlcv env (ex_id pin) market_symbol timeframe limit = inr candles →
  fetch_ohlcv_pinned cfg env st base_symbol timeframe limit
  = (record_call (FetchOhlcv (ex_id pin) market_symbol timeframe limit)
       (read_clock env st).2,
     inr (pin, market_symbol, candles)).
Proof.
  intros Hpin Hknown Hcool Hcache Hfetch.
  rewrite fetch_ohlcv_pinned_unfold, exchange_order_at_spec, Hpin.
  unfold pin_then_priority. rewrite bool_decide_eq_true_2 by done.
  rewrite filter_cons_True by done.
  cbn [fetch_loop]. unfold try_body.
  rewrite (find_perp_market_symbol_hit _ _ _ _ market_symbol) by done.
  rewrite Hfetch. cbn [read_clock snd record_call pinned_exchange].
  rewrite Hpin, String.eqb_refl, andb_false_r.
  by rewrite set_pinned_exchange_same.
Qed.

Lemma fetch_steady_state_witness :
  fetch_ohlcv_pinned default_config spot_env steady_state "BTC/USDT" "5m" 100
  = (record_call (FetchOhlcv (ex_id "kucoin") "BTC/USDT:USDT" "5m" 100)
       (read_clock spot_env steady_state).2,
     inr ("kucoin", "BTC/USDT:USDT", two_candles)).
Proof.
  apply (fetch_steady_state default_config spot_env steady_state "BTC/USDT" "5m" 100
           "kucoin" "BTC/USDT:USDT" two_candles).
  - reflexivity.
  - apply (bool_decide_unpack _). vm_compute. exact I.
  - vm_compute. discriminate.
  - reflexivity.
  - reflexivity.
Defined.

(** X3: the silent state.  When every source of [EXCHANGES] is in cooldown
    at the time read on entry, the fetch calls nothing, writes nothing but
    the count of clock readings, and raises with no source tried and no
    last error. *)
Theorem fetch_all_in_cooldown cfg env st base_symbol timeframe limit :
  (∀ ex, ex ∈ EXCHANGES → time_time env (clock_reads st) < cooldown_of st ex) →
  fetch_ohlcv_pinned cfg env st base_symbol timeframe limit
  = ((read_clock env st).2,
     inl (NoExchangeResponded base_symbol timeframe [] None)).
Proof.
  intros Hcooling. rewrite fetch_ohlcv_pinned_unfold.
  assert (Hnil : exchange_order_at (time_time env (clock_reads st)) st
                   base_symbol timeframe = []).
  { apply elem_of_nil_inv. intros ex [Hex Hok]%elem_of_exchange_order_at.
    specialize (Hcooling ex Hex). lia. }
  by rewrite Hnil.
Qed.

Lemma fetch_all_in_cooldown_witness :
  fetch_ohlcv_pinned default_config sample_env cooled_state "BTC/USDT" "5m" 100
  = ((read_clock sample_env cooled_state).2,
     inl (NoExchangeResponded "BTC/USDT" "5m" [] None)).
Proof.
  apply (fetch_all_in_cooldown default_config sample_env cooled_state
           "BTC/USDT" "5m" 100).
  intros ex Hex. unfold EXCHANGES in Hex.
  rewrite !elem_of_cons, elem_of_nil in Hex.
  destruct Hex as [-> | [-> | [-> | []]]]; vm_compute; reflexivity.
Defined.

(** ** How much a fetch asks *)

Lemma count_calls_app p cs1 cs2 :
  count_calls p (cs1 ++ cs2) = (count_calls p cs1 + count_calls p cs2)%nat.
Proof. unfold count_calls. by rewrite List.filter_app, length_app. Qed.

Lemma turns_calls_cons env st base_symbol timeframe limit x xs :
  turns_calls env st base_symbol timeframe limit (x :: xs)
  = provider_calls env st x base_symbol timeframe limit
    ++ turns_calls env st base_symbol timeframe limit xs.
Proof. reflexivity. Qed.

Lemma provider_calls_loads env st base_symbol timeframe limit x y :
  (count_calls (is_load_of x)
     (provider_calls env st y base_symbol timeframe limit) ≤ 1)%nat
  ∧ (x ≠ y →
     count_calls (is_load_of x)
       (provider_calls env st y base_symbol timeframe limit) = 0%nat).
Proof.
  unfold provider_calls, ex_id. rewrite count_calls_app.
  assert (Hsnd : count_calls (is_load_of x)
                   match (find_perp_market_symbol env st y base_symbol).2 with
                   | inl _ => []
                   | inr market_symbol => [FetchOhlcv y market_symbol timeframe limit]
                   end = 0%nat)
    by (by destruct (find_perp_market_symbol env st y base_symbol).2).
  rewrite Hsnd.
  destruct (perp_symbol_cache st !! (y, base_symbol)); unfold count_calls; cbn.
  - split; [lia | done].
  - destruct (String.eqb_spec y x) as [-> | Hne]; cbn; split; try lia; done.
Qed.

Lemma provider_calls_fetches env st base_symbol timeframe limit x y :
  (count_calls (is_fetch_of x)
     (provider_calls env st y base_symbol timeframe limit) ≤ 1)%nat
  ∧ (x ≠ y →
     count_calls (is_fetch_of x)
       (provider_calls env st y base_symbol timeframe limit) = 0%nat).
Proof.
  unfold provider_calls, ex_id. rewrite count_calls_app.
  assert (Hfst : count_calls (is_fetch_of x)
                   match perp_symbol_cache st !! (y, base_symbol) with
                   | Some _ => []
                   | None => [LoadMarkets y]
                   end = 0%nat)
    by (by destruct (perp_symbol_cache st !! (y, base_symbol))).
  rewrite Hfst.
  destruct (find_perp_market_symbol env st y base_symbol).2; unfold count_calls; cbn.
  - split; [lia | done].
  - destruct (String.eqb_spec y x) as [-> | Hne]; cbn; split; try lia; done.
Qed.

Lemma provider_calls_sends env st base_symbol timeframe limit y :
  count_calls is_send (provider_calls env st y base_symbol timeframe limit) = 0%nat.
Proof.
  unfold provider_calls. rewrite count_calls_app.
  destruct (perp_symbol_cache st !! (ex_id y, base_symbol));
    by destruct (find_perp_market_symbol env st (ex_id y) base_symbol).2.
Qed.

(** Over sources that are all different, a test that a turn passes at most
    once, and only for its own source, is passed at most once per source. *)
Lemma turns_calls_count env st base_symbol timeframe limit
    (p : string → call → bool) (sources : list string) x :
  (∀ y, (count_calls (p x)
           (provider_calls env st y base_symbol timeframe limit) ≤ 1)%nat
        ∧ (x ≠ y →
           count_calls (p x)
             (provider_calls env st y base_symbol timeframe limit) = 0%nat)) →
  NoDup sources →
  (count_calls (p x) (turns_calls env st base_symbol timeframe limit sources) ≤ 1)%nat
  ∧ (x ∉ sources →
     count_calls (p x) (turns_calls env st base_symbol timeframe limit sources)
     = 0%nat).
Proof.
  intros Hp. induction sources as [|y ys IH]; intros Hnd.
  { unfold turns_calls, count_calls. cbn. split; [lia | done]. }
  apply NoDup_cons in Hnd as [Hy Hnd]. destruct (IH Hnd) as [IHle IHzero].
  rewrite turns_calls_cons, count_calls_app. destruct (Hp y) as [Hle Hzero].
  split.
  - destruct (decide (x = y)) as [-> | Hne].
    + rewrite (IHzero Hy). lia.
    + rewrite (Hzero Hne). lia.
  - intros Hx. rewrite Hzero, IHzero; [done | |]; intros ?; apply Hx.
    + by right.
    + subst. by left.
Qed.

Lemma turns_calls_sends env st base_symbol timeframe limit sources :
  count_calls is_send (turns_calls env st base_symbol timeframe limit sources) = 0%nat.
Proof.
  induction sources as [|y ys IH]; [done |].
  by rewrite turns_calls_cons, count_calls_app, provider_calls_sends, IH.
Qed.

(** The calls of a fetch, whatever its outcome: the turns of sources that
    are all different and all in [EXCHANGES], then at most one message. *)
Lemma fetch_calls_shape cfg env st base_symbol timeframe limit :
  ∃ sources tail,
    NoDup sources
    ∧ (∀ x, x ∈ sources → x ∈ EXCHANGES)
    ∧ calls_since st (fetch_ohlcv_pinned cfg env st base_symbol timeframe limit).1
      = turns_calls env st base_symbol timeframe limit sources ++ tail
    ∧ (tail = [] ∨ ∃ msg, tail = [Send msg]).
Proof.
  rewrite fetch_ohlcv_pinned_unfold.
  set (order := exchange_order_at (time_time env (clock_reads st)) st
                  base_symbol timeframe).
  assert (Hnd : NoDup order) by apply NoDup_exchange_order_at.
  assert (Hknown : ∀ x, x ∈ order → x ∈ EXCHANGES).
  { intros x Hx. by apply elem_of_exchange_order_at in Hx as [? _]. }
  destruct (all_fail_or_some_success env st base_symbol timeframe limit order)
    as [Hall | Hsome].
  - destruct (fetch_loop_all_fail cfg env base_symbol timeframe limit order
                (read_clock env st).2 [] None Hnd)
      as (st' & Hres & _ & Hcalls).
    { intros x Hx. rewrite (attempt_error_cache _ _ _ _ st) by done. by apply Hall. }
    rewrite Hres. cbn [fst]. cbn [read_clock snd calls] in Hcalls.
    rewrite (turns_calls_cache _ _ _ _ st) in Hcalls by done.
    exists order, []. rewrite app_nil_r.
    split; [done |]. split; [done |]. split; [by apply calls_since_app | by left].
  - destruct (first_success_split env base_symbol timeframe limit st order Hsome)
      as (before & winner & later & m & cs & Horder & Hbefore & Hwin).
    rewrite Horder in Hnd.
    destruct (fetch_loop_first_success cfg env base_symbol timeframe limit
                before winner later m cs (read_clock env st).2 [] None Hnd)
      as (st' & Hres & _ & Hcalls).
    { intros x Hx. rewrite (attempt_error_cache _ _ _ _ st) by done. by apply Hbefore. }
    { by rewrite (attempt_cache env st). }
    rewrite Horder, Hres. cbn [fst]. cbn [read_clock snd calls pinned_exchange] in Hcalls.
    rewrite (turns_calls_cache _ _ _ _ st) in Hcalls by done.
    exists (before ++ [winner]),
      (failover_calls (pinned_exchange st !! (base_symbol, timeframe))
         base_symbol timeframe winner).
    split; [| split; [| split; [by apply calls_since_app |]]].
    + apply NoDup_app in Hnd as (Hb & Hdisj & Hw).
      apply NoDup_app. split; [done |]. split; [| apply NoDup_singleton].
      intros x Hx ->%list_elem_of_singleton. apply (Hdisj winner Hx). by left.
    + intros x Hx. apply Hknown. rewrite Horder.
      apply elem_of_app in Hx as [Hx | ->%list_elem_of_singleton];
        apply elem_of_app; [by left | right; by left].
    + unfold failover_calls.
      destruct (pinned_exchange st !! (base_symbol, timeframe)) as [p|]; [| by left].
      destruct (negb (String.eqb p "") && negb (String.eqb p winner));
        [right; by eexists | by left].
Qed.

(** X4: one fetch asks each exchange at most once for its catalog and at
    most once for candles, asks nothing of a name outside [EXCHANGES], and
    sends at most one message. *)
Theorem fetch_call_bounds cfg env st base_symbol timeframe limit :
  let cs :=
    calls_since st (fetch_ohlcv_pinned cfg env st base_symbol timeframe limit).1 in
  (∀ x, (count_calls (is_load_of x) cs ≤ 1)%nat
        ∧ (count_calls (is_fetch_of x) cs ≤ 1)%nat)
  ∧ (count_calls is_send cs ≤ 1)%nat
  ∧ (∀ c x, c ∈ cs → call_exchange c = Some x → x ∈ EXCHANGES).
Proof.
  intros cs.
  destruct (fetch_calls_shape cfg env st base_symbol timeframe limit)
    as (sources & tail & Hnd & Hknown & Hcs & Htail).
  fold cs in Hcs. rewrite Hcs.
  assert (Hzero : ∀ p, (∀ msg, p (Send msg) = false) → count_calls p tail = 0%nat).
  { intros p Hp. destruct Htail as [-> | [msg ->]]; [done |].
    unfold count_calls. cbn. by rewrite Hp. }
  split; [| split].
  - intros x. rewrite !count_calls_app, !Hzero by done. split.
    + destruct (turns_calls_count env st base_symbol timeframe limit
                  is_load_of sources x) as [Hle _]; [| done | lia].
      intros y. apply provider_calls_loads.
    + destruct (turns_calls_count env st base_symbol timeframe limit
                  is_fetch_of sources x) as [Hle _]; [| done | lia].
      intros y. apply provider_calls_fetches.
  - rewrite count_calls_app, turns_calls_sends.
    destruct Htail as [-> | [msg ->]]; unfold count_calls; cbn; lia.
  - intros c x [Hc | Hc]%elem_of_app Hx.
    + apply elem_of_turns_calls in Hc as (y & Hy & Hcy).
      assert (x = y) as -> by congruence. by apply Hknown.
    + destruct Htail as [-> | [msg ->]]; [by apply elem_of_nil in Hc |].
      by apply list_elem_of_singleton in Hc as ->.
Qed.

(** ** More on the resolver *)

(** X5: a resolution that fails caches nothing.  The call has loaded the
    catalog once and left the cache as it was, and the same call made
    again, in whatever environment, loads the catalog again and answers
    from it. *)
Theorem failed_resolution_retried env env' st ex base_symbol st1 e :
  find_perp_market_symbol env st ex base_symbol = (st1, inl e) →
  perp_symbol_cache st1 = perp_symbol_cache st
  ∧ calls st1 = calls st ++ [LoadMarkets ex]
  ∧ calls (find_perp_market_symbol env' st1 ex base_symbol).1
    = calls st ++ [LoadMarkets ex; LoadMarkets ex]
  ∧ (find_perp_market_symbol env' st1 ex base_symbol).2
    = match load_markets env' ex with
      | inl e' => inl e'
      | inr cat => choose_market cat base_symbol ex
      end.
Proof.
  intros Hfirst.
  assert (Hmiss : perp_symbol_cache st !! (ex, base_symbol) = None).
  { destruct (perp_symbol_cache st !! (ex, base_symbol)) eqn:Hc; [| done].
    by rewrite (find_perp_market_symbol_hit _ _ _ _ _ Hc) in Hfirst. }
  assert (Hst1 : st1 = record_call (LoadMarkets ex) st).
  { rewrite find_perp_market_symbol_miss in Hfirst by done.
    destruct (load_markets env ex) as [e' | cat].
    - by injection Hfirst as <- _.
    - destruct (choose_market cat base_symbol ex); [| done].
      by injection Hfirst as <- _. }
  subst st1. split; [done |]. split; [done |].
  assert (Hmiss' : perp_symbol_cache (record_call (LoadMarkets ex) st)
                     !! (ex, base_symbol) = None) by done.
  split.
  - rewrite find_perp_market_symbol_calls, Hmiss'. cbn. by rewrite <- app_assoc.
  - rewrite find_perp_market_symbol_miss by done.
    destruct (load_markets env' ex) as [e' | cat]; [done |].
    by destruct (choose_market cat base_symbol ex).
Qed.

(** bybit times out, then lists the spot pair: the second call loads the
    catalog again and returns the raw symbol. *)
Lemma failed_resolution_retried_witness :
  calls (find_perp_market_symbol spot_env
           (record_call (LoadMarkets "bybit") initial_state) "bybit" "BTC/USDT").1
  = calls initial_state ++ [LoadMarkets "bybit"; LoadMarkets "bybit"]
  ∧ (find_perp_market_symbol spot_env
       (record_call (LoadMarkets "bybit") initial_state) "bybit" "BTC/USDT").2
    = match load_markets spot_env "bybit" with
      | inl e' => inl e'
      | inr cat => choose_market cat "BTC/USDT" "bybit"
      end.
Proof.
  pose proof (failed_resolution_retried down_env spot_env initial_state
                "bybit" "BTC/USDT"
                (record_call (LoadMarkets "bybit") initial_state)
                (Exc RequestTimeout "request timed out") eq_refl)
    as (_ & _ & Hcalls & Hres).
  split; [exact Hcalls | exact Hres].
Defined.

Lemma split_slash_length s : length (Str.split_slash s) = S (slashes s).
Proof.
  induction s as [|c s IH]; [done |]. cbn [Str.split_slash slashes].
  destruct (Ascii.eqb c "/"); cbn [length]; [by rewrite IH |].
  destruct (Str.split_slash s) as [|piece pieces]; [done |]. exact IH.
Qed.

(** X6: on a cache miss with the catalog loaded, the resolver raises
    [ValueError] exactly when [base_symbol] does not hold one ["/"] and one
    only, whatever the catalog lists; it has then called [load_markets] and
    cached nothing. *)
Theorem resolve_unpack_error env st ex base_symbol cat :
  perp_symbol_cache st !! (ex, base_symbol) = None →
  load_markets env ex = inr cat →
  let r := find_perp_market_symbol env st ex base_symbol in
  (slashes base_symbol ≠ 1%nat ↔ ∃ msg, r.2 = inl (Exc ValueError msg))
  ∧ (slashes base_symbol ≠ 1%nat → r.1 = record_call (LoadMarkets ex) st).
Proof.
  intros Hmiss Hload r. subst r.
  rewrite find_perp_market_symbol_miss, Hload by done. unfold choose_market.
  pose proof (split_slash_length base_symbol) as Hlen.
  destruct (Str.split_slash base_symbol) as [|p1 [|p2 [|p3 ps]]]; cbn in Hlen.
  - done.
  - split; [| done]. split; [by eexists | lia].
  - assert (Hone : slashes base_symbol = 1%nat) by lia. split; [| done].
    split; [done |]. intros [msg Hmsg]. exfalso.
    destruct (swap_candidates p1 p2 (markets cat)) as [|first others].
    + by case_bool_decide.
    + by destruct (linear_of (first :: others)).
  - split; [| done]. split; [by eexists | lia].
Qed.

(** okx lists "BTCUSDT", and the resolver still stops at the unpacking. *)
Lemma resolve_unpack_error_witness :
  ∃ msg,
    (find_perp_market_symbol
       {| time_time := time_time spot_env;
          load_markets := λ _, inr (Catalog [] ["BTCUSDT"]);
          fetch_ohlcv := fetch_ohlcv spot_env;
          rsi_series := rsi_series spot_env |}
       initial_state "okx" "BTCUSDT").2
    = inl (Exc ValueError msg).
Proof.
  apply (resolve_unpack_error
           {| time_time := time_time spot_env;
              load_markets := λ _, inr (Catalog [] ["BTCUSDT"]);
              fetch_ohlcv := fetch_ohlcv spot_env;
              rsi_series := rsi_series spot_env |}
           initial_state "okx" "BTCUSDT" (Catalog [] ["BTCUSDT"]) eq_refl eq_refl).
  vm_compute. discriminate.
Defined.

(** X7: eviction and resolution compose.  After a failed attempt whose
    error speaks of a symbol or a market and is not a [BadSymbol], the next
    resolution for that source is a miss, in whatever environment it runs:
    it loads the catalog and answers from it, not from the entry that was
    cached. *)
Theorem evicted_source_resolves_afresh cfg env env' st ex_name base_symbol timeframe
    limit e :
  attempt env st ex_name base_symbol timeframe limit = inl e →
  isinstance_BadSymbol (exc_type e) = false →
  mentions_market e = true →
  let st2 := after_failure cfg env st ex_name base_symbol timeframe limit e in
  let r := find_perp_market_symbol env' st2 (ex_id ex_name) base_symbol in
  r.2 = match load_markets env' (ex_id ex_name) with
        | inl e' => inl e'
        | inr cat => choose_market cat base_symbol (ex_id ex_name)
        end
  ∧ calls r.1 = calls st2 ++ [LoadMarkets (ex_id ex_name)].
Proof.
  intros _ Hbad Hmsg st2 r.
  assert (Hmiss : perp_symbol_cache st2 !! (ex_id ex_name, base_symbol) = None).
  { subst st2. unfold after_failure.
    rewrite except_body_cache, Hbad, Hmsg. apply lookup_delete_eq. }
  subst r. rewrite find_perp_market_symbol_calls, Hmiss.
  rewrite find_perp_market_symbol_miss by done. split; [| done].
  destruct (load_markets env' (ex_id ex_name)) as [e' | cat]; [done |].
  by destruct (choose_market cat base_symbol (ex_id ex_name)).
Qed.

(** okx resolves the swap, its candle request is refused with a text that
    speaks of a market symbol; the entry is evicted, and a catalog that
    lists the spot pair only then gives the raw symbol. *)
Lemma evicted_source_resolves_afresh_witness :
  (find_perp_market_symbol spot_env
     (after_failure default_config sample_env initial_state "okx" "BTC/USDT" "5m" 100
        (Exc ExchangeError "okx does not have market symbol BTC/USDT:USDT"))
     (ex_id "okx") "BTC/USDT").2
  = inr "BTC/USDT".
Proof.
  pose proof (evicted_source_resolves_afresh default_config sample_env spot_env
                initial_state "okx" "BTC/USDT" "5m" 100
                (Exc ExchangeError "okx does not have market symbol BTC/USDT:USDT")
                eq_refl eq_refl eq_refl) as [Hres _].
  rewrite Hres. vm_compute. reflexivity.
Defined.

(** ** The key of a series *)

Lemma append_empty (s : string) : "" +:+ s = s.
Proof. reflexivity. Qed.

Lemma append_cons (c : ascii) (a s : string) :
  String c a +:+ s = String c (a +:+ s).
Proof. reflexivity. Qed.

Lemma append_bar_split a1 r1 a2 r2 :
  no_bar a1 = true → no_bar a2 = true →
  a1 +:+ "|" +:+ r1 = a2 +:+ "|" +:+ r2 →
  a1 = a2 ∧ r1 = r2.
Proof.
  revert a2. induction a1 as [|c a1 IH]; intros [|c2 a2] H1 H2 Heq;
    repeat (rewrite append_empty in Heq || rewrite append_cons in Heq).
  - by injection Heq as ->.
  - injection Heq as <- _. cbn in H2. done.
  - injection Heq as -> _. cbn in H1. done.
  - injection Heq as -> Heq. cbn in H1, H2.
    apply andb_true_iff in H1 as [_ H1]. apply andb_true_iff in H2 as [_ H2].
    destruct (IH a2 H1 H2 Heq) as [-> ->]. done.
Qed.

(** X8: two series have the same key only if they are the same series, as
    long as no exchange name and no market symbol holds a ["|"]. *)
Theorem series_key_injective ex1 m1 tf1 ex2 m2 tf2 :
  no_bar ex1 = true → no_bar m1 = true →
  no_bar ex2 = true → no_bar m2 = true →
  series_key ex1 m1 tf1 = series_key ex2 m2 tf2 →
  ex1 = ex2 ∧ m1 = m2 ∧ tf1 = tf2.
Proof.
  intros He1 Hm1 He2 Hm2 Heq. unfold series_key in Heq.
  apply append_bar_split in Heq as [-> Heq]; [| done | done].
  apply append_bar_split in Heq as [-> ->]; done.
Qed.

Lemma series_key_injective_witness :
  "kucoin" = "kucoin" ∧ "BTC/USDT:USDT" = "BTC/USDT:USDT" ∧ "5m" = "5m".
Proof.
  apply (series_key_injective "kucoin" "BTC/USDT:USDT" "5m"
           "kucoin" "BTC/USDT:USDT" "5m"); reflexivity.
Defined.

(** With a ["|"] in a market symbol two series can share a key. *)
Example series_key_collision :
  series_key "okx" "BTC|USDT" "5m" = series_key "okx" "BTC" "USDT|5m".
Proof. reflexivity. Qed.

(** ** [get_rsi] and the turns of [run] *)

Lemma fetch_ohlcv_pinned_last_state cfg env st base_symbol timeframe limit :
  last_state (fetch_ohlcv_pinned cfg env st base_symbol timeframe limit).1
  = last_state st.
Proof.
  rewrite fetch_ohlcv_pinned_unfold.
  destruct (fetch_loop_frame cfg env base_symbol timeframe limit
              (exchange_order_at (time_time env (clock_reads st)) st
                 base_symbol timeframe)
              (read_clock env st).2 [] None) as [Hlast _]; [| exact Hlast].
  apply NoDup_exchange_order_at.
Qed.

(** [get_rsi] ends in the state its fetch ended in. *)
Lemma get_rsi_state cfg env st base_symbol tf :
  (get_rsi cfg env st base_symbol tf).1
  = (fetch_ohlcv_pinned cfg env st base_symbol tf 100).1.
Proof.
  unfold get_rsi.
  destruct (fetch_ohlcv_pinned cfg env st base_symbol tf 100)
    as [st1 [err | [[ex_name market_symbol] candles]]]; [done |].
  destruct (iloc _ (-2)); [| done]. by destruct (iloc _ (-1)).
Qed.

(** A successful fetch has written its pin, with a name of [EXCHANGES]. *)
Lemma fetch_success_pin cfg env st base_symbol timeframe limit st' winner
    market_symbol candles :
  fetch_ohlcv_pinned cfg env st base_symbol timeframe limit
  = (st', inr (winner, market_symbol, candles)) →
  winner ∈ EXCHANGES
  ∧ pinned_exchange st'
    = <[(base_symbol, timeframe) := winner]> (pinned_exchange st).
Proof.
  rewrite fetch_ohlcv_pinned_unfold.
  set (order := exchange_order_at (time_time env (clock_reads st)) st
                  base_symbol timeframe).
  destruct (all_fail_or_some_success env st base_symbol timeframe limit order)
    as [Hall | Hsome].
  - destruct (fetch_loop_all_fail cfg env base_symbol timeframe limit order
                (read_clock env st).2 [] None)
      as (st1 & Hres & _).
    { apply NoDup_exchange_order_at. }
    { intros x Hx. rewrite (attempt_error_cache _ _ _ _ st) by done. by apply Hall. }
    rewrite Hres. done.
  - destruct (first_success_split env base_symbol timeframe limit st order Hsome)
      as (before & w & later & m & cs & Horder & Hbefore & Hwin).
    destruct (fetch_loop_first_success cfg env base_symbol timeframe limit
                before w later m cs (read_clock env st).2 [] None)
      as (st1 & Hres & Hpin & _).
    { rewrite <- Horder. apply NoDup_exchange_order_at. }
    { intros x Hx. rewrite (attempt_error_cache _ _ _ _ st) by done. by apply Hbefore. }
    { by rewrite (attempt_cache env st). }
    rewrite Horder, Hres. intros [= <- <- _ _]. split; [| exact Hpin].
    apply (elem_of_exchange_order_at (time_time env (clock_reads st)) st
             base_symbol timeframe).
    fold order. rewrite Horder. apply elem_of_app. right. by left.
Qed.

(** A failed fetch has written no pin. *)
Lemma fetch_failure_pins cfg env st base_symbol timeframe limit st' err :
  fetch_ohlcv_pinned cfg env st base_symbol timeframe limit = (st', inl err) →
  pinned_exchange st' = pinned_exchange st.
Proof.
  rewrite fetch_ohlcv_pinned_unfold.
  set (order := exchange_order_at (time_time env (clock_reads st)) st
                  base_symbol timeframe).
  destruct (all_fail_or_some_success env st base_symbol timeframe limit order)
    as [Hall | Hsome].
  - destruct (fetch_loop_all_fail cfg env base_symbol timeframe limit order
                (read_clock env st).2 [] None)
      as (st1 & Hres & Hpin & _).
    { apply NoDup_exchange_order_at. }
    { intros x Hx. rewrite (attempt_error_cache _ _ _ _ st) by done. by apply Hall. }
    rewrite Hres. by intros [= <- _].
  - destruct (first_success_split env base_symbol timeframe limit st order Hsome)
      as (before & w & later & m & cs & Horder & Hbefore & Hwin).
    destruct (fetch_loop_first_success cfg env base_symbol timeframe limit
                before w later m cs (read_clock env st).2 [] None)
      as (st1 & Hres & _).
    { rewrite <- Horder. apply NoDup_exchange_order_at. }
    { intros x Hx. rewrite (attempt_error_cache _ _ _ _ st) by done. by apply Hbefore. }
    { by rewrite (attempt_cache env st). }
    rewrite Horder, Hres. done.
Qed.

(** The loop raises nothing but its own [RuntimeError]. *)
Lemma fetch_loop_error_kind cfg env base_symbol timeframe limit order :
  ∀ st tried last_err st' err,
    fetch_loop cfg env base_symbol timeframe limit order st tried last_err
    = (st', inl err) →
    ∃ tried' last', err = NoExchangeResponded base_symbol timeframe tried' last'.
Proof.
  induction order as [|x xs IH]; intros st tried last_err st' err; cbn [fetch_loop].
  - intros [= _ <-]. by eexists _, _.
  - destruct (try_body env st x base_symbol timeframe limit) as [st1 [e | r]];
      [apply IH | done].
Qed.

(** X9: the [IndexError] of [get_rsi] comes after the fetch has succeeded.
    When [get_rsi] ends in it, some source of [EXCHANGES] has answered and
    is the pin of the pair in the state left behind: the turn ends in an
    error and the pin has moved all the same. *)
Theorem get_rsi_index_error_after_pin cfg env st base_symbol tf st' :
  get_rsi cfg env st base_symbol tf = (st', inl IlocOutOfBounds) →
  ∃ winner market_symbol candles,
    fetch_ohlcv_pinned cfg env st base_symbol tf 100
    = (st', inr (winner, market_symbol, candles))
    ∧ winner ∈ EXCHANGES
    ∧ pinned_exchange st' !! (base_symbol, tf) = Some winner
    ∧ (length (rsi_series env 14 (c_c <$> candles)) < 2)%nat.
Proof.
  unfold get_rsi.
  destruct (fetch_ohlcv_pinned cfg env st base_symbol tf 100)
    as [st1 [err | [[winner market_symbol] candles]]] eqn:Hfetch.
  - intros [= <- ->]. rewrite fetch_ohlcv_pinned_unfold in Hfetch.
    by apply fetch_loop_error_kind in Hfetch as (tried & last & ?).
  - destruct (fetch_success_pin _ _ _ _ _ _ _ _ _ _ Hfetch) as [Hknown Hpin].
    set (rsi := rsi_series env 14 (c_c <$> candles)).
    change (-2) with (- Z.of_nat 2). change (-1) with (- Z.of_nat 1).
    rewrite !iloc_from_end by lia.
    intros Hres. exists winner, market_symbol, candles.
    assert (Hshort : (length rsi < 2)%nat ∧ st1 = st').
    { destruct (decide (2 ≤ length rsi)%nat) as [Hlen | Hlen].
      - destruct (lookup_lt_is_Some_2 rsi (length rsi - 2)) as [prev Hprev]; [lia |].
        destruct (lookup_lt_is_Some_2 rsi (length rsi - 1)) as [curr Hcurr]; [lia |].
        rewrite Hprev in Hres. rewrite decide_True in Hres by lia.
        rewrite Hcurr in Hres. done.
      - split; [lia |]. by injection Hres. }
    destruct Hshort as [Hshort <-].
    split; [done |]. split; [done |]. split; [| done].
    rewrite Hpin. apply lookup_insert_eq.
Qed.

(** bybit times out, kucoin answers one candle: kucoin is pinned, and the
    turn ends in the [IndexError]. *)
Lemma get_rsi_index_error_after_pin_witness :
  ∃ winner market_symbol candles,
    fetch_ohlcv_pinned default_config one_candle_env initial_state "BTC/USDT" "5m" 100
    = ((get_rsi default_config one_candle_env initial_state "BTC/USDT" "5m").1,
       inr (winner, market_symbol, candles))
    ∧ winner ∈ EXCHANGES
    ∧ pinned_exchange
        (get_rsi default_config one_candle_env initial_state "BTC/USDT" "5m").1
      !! ("BTC/USDT", "5m") = Some winner
    ∧ (length (rsi_series one_candle_env 14 (c_c <$> candles)) < 2)%nat.
Proof.
  apply (get_rsi_index_error_after_pin default_config one_candle_env initial_state
           "BTC/USDT" "5m").
  vm_compute. reflexivity.
Defined.

Lemma cross_detection_last_state cfg st ex_name market_symbol tf prev curr :
  last_state (cross_detection cfg st ex_name market_symbol tf prev curr)
  = <[series_key ex_name market_symbol tf := curr]> (last_state st).
Proof.
  destruct (last_state st !! series_key ex_name market_symbol tf) as [v|] eqn:Hkey.
  - by destruct (cross_detection_later cfg st ex_name market_symbol tf prev curr)
      as [_ ?].
  - by rewrite cross_detection_first.
Qed.

Lemma cross_detection_pins cfg st ex_name market_symbol tf prev curr :
  pinned_exchange (cross_detection cfg st ex_name market_symbol tf prev curr)
  = pinned_exchange st.
Proof.
  unfold cross_detection.
  destruct (last_state st !! series_key ex_name market_symbol tf); [| done].
  destruct (float_gt prev (RSI_LOW cfg) && float_le curr (RSI_LOW cfg));
    by destruct (float_lt prev (RSI_HIGH cfg) && float_ge curr (RSI_HIGH cfg)).
Qed.

(** X10: one turn of [run] writes at most one stored RSI value.  If the
    value stored under a key differs after the turn, then [get_rsi] has
    returned, the key is that of the source, market and timeframe that
    answered, and the value is the current RSI; a turn that ends in an
    error stores nothing, and no turn ever removes a stored value. *)
Theorem run_timeframe_writes_one_key cfg env st tf key :
  let st' := run_timeframe cfg env st tf in
  last_state st' !! key ≠ last_state st !! key →
  ∃ st1 ex_name market_symbol prev curr,
    get_rsi cfg env st (SYMBOL cfg) tf
    = (st1, inr (ex_name, market_symbol, prev, curr))
    ∧ key = series_key ex_name market_symbol tf
    ∧ last_state st' !! key = Some curr.
Proof.
  intros st'. subst st'. unfold run_timeframe.
  pose proof (get_rsi_state cfg env st (SYMBOL cfg) tf) as Hstate.
  pose proof (fetch_ohlcv_pinned_last_state cfg env st (SYMBOL cfg) tf 100) as Hlast.
  rewrite <- Hstate in Hlast.
  destruct (get_rsi cfg env st (SYMBOL cfg) tf)
    as [st1 [err | [[[ex_name market_symbol] prev] curr]]]; cbn [fst] in Hlast.
  - cbn. rewrite Hlast. done.
  - rewrite cross_detection_last_state, Hlast. intros Hchanged.
    exists st1, ex_name, market_symbol, prev, curr. split; [done |].
    destruct (decide (series_key ex_name market_symbol tf = key)) as [<- | Hne].
    + split; [done |]. apply lookup_insert_eq.
    + by rewrite lookup_insert_ne in Hchanged.
Qed.

Lemma run_timeframe_writes_one_key_witness :
  ∃ st1 ex_name market_symbol prev curr,
    get_rsi default_config sample_env initial_state (SYMBOL default_config) "5m"
    = (st1, inr (ex_name, market_symbol, prev, curr))
    ∧ series_key "kucoin" "BTC/USDT:USDT" "5m" = series_key ex_name market_symbol "5m"
    ∧ last_state (run_timeframe default_config sample_env initial_state "5m")
      !! series_key "kucoin" "BTC/USDT:USDT" "5m" = Some curr.
Proof.
  apply (run_timeframe_writes_one_key default_config sample_env initial_state "5m"
           (series_key "kucoin" "BTC/USDT:USDT" "5m")).
  vm_compute. discriminate.
Defined.

(** ** What the loop keeps *)

Lemma run_timeframe_pins cfg env st tf :
  pinned_exchange (run_timeframe cfg env st tf) = pinned_exchange st
  ∨ ∃ winner, winner ∈ EXCHANGES
      ∧ pinned_exchange (run_timeframe cfg env st tf)
        = <[(SYMBOL cfg, tf) := winner]> (pinned_exchange st).
Proof.
  unfold run_timeframe.
  pose proof (get_rsi_state cfg env st (SYMBOL cfg) tf) as Hstate.
  assert (Hpins : pinned_exchange (get_rsi cfg env st (SYMBOL cfg) tf).1
                  = pinned_exchange st
                  ∨ ∃ winner, winner ∈ EXCHANGES
                      ∧ pinned_exchange (get_rsi cfg env st (SYMBOL cfg) tf).1
                        = <[(SYMBOL cfg, tf) := winner]> (pinned_exchange st)).
  { rewrite Hstate.
    destruct (fetch_ohlcv_pinned cfg env st (SYMBOL cfg) tf 100)
      as [st1 [err | [[winner m] cs]]] eqn:Hfetch.
    - left. by apply fetch_failure_pins in Hfetch.
    - right. exists winner. by apply fetch_success_pin in Hfetch. }
  destruct (get_rsi cfg env st (SYMBOL cfg) tf)
    as [st1 [err | [[[ex_name market_symbol] prev] curr]]]; cbn [fst] in Hpins.
  - exact Hpins.
  - by rewrite cross_detection_pins.
Qed.

Lemma run_timeframe_keeps cfg env st tf :
  tf ∈ TIMEFRAMES cfg →
  pins_known st ∧ pins_within cfg st →
  pins_known (run_timeframe cfg env st tf)
  ∧ pins_within cfg (run_timeframe cfg env st tf).
Proof.
  intros Htf [Hknown Hwithin].
  destruct (run_timeframe_pins cfg env st tf) as [Hsame | (winner & Hw & Hins)].
  - split; intros key p; rewrite Hsame; [apply Hknown | apply Hwithin].
  - split; intros key p; rewrite Hins;
      intros [[<- <-] | [_ Hp]]%lookup_insert_Some.
    + done.
    + by apply Hknown in Hp.
    + by exists tf.
    + by apply Hwithin in Hp.
Qed.

Lemma run_for_keeps cfg env_at tfs :
  ∀ turn st,
    (∀ tf, tf ∈ tfs → tf ∈ TIMEFRAMES cfg) →
    pins_known st ∧ pins_within cfg st →
    pins_known (run_for cfg env_at turn tfs st)
    ∧ pins_within cfg (run_for cfg env_at turn tfs st).
Proof.
  induction tfs as [|tf tfs IH]; intros turn st Htfs Hst; [done |].
  cbn [run_for]. apply IH.
  - intros tf' Htf'. apply Htfs. by right.
  - apply run_timeframe_keeps; [| done]. apply Htfs. by left.
Qed.

(** X11: whatever the exchanges answer and however many rounds the loop
    makes, starting where every pin names a source of [EXCHANGES] for the
    configured symbol and a configured timeframe, it ends there: [run]
    never pins an unknown source, another symbol or another timeframe. *)
Theorem run_cycles_keeps_pins cfg env_at n :
  ∀ turn st,
    pins_known st → pins_within cfg st →
    pins_known (run_cycles cfg env_at turn n st)
    ∧ pins_within cfg (run_cycles cfg env_at turn n st).
Proof.
  induction n as [|n IH]; intros turn st Hknown Hwithin; [done |].
  cbn [run_cycles].
  destruct (run_for_keeps cfg env_at (TIMEFRAMES cfg) turn st) as [Hk Hw];
    [done | done |].
  by apply IH.
Qed.

(** Two rounds over the three default timeframes from the fresh state. *)
Lemma run_cycles_keeps_pins_witness :
  pins_known (run_cycles default_config (λ _, sample_env) 0 2 initial_state)
  ∧ pins_within default_config
      (run_cycles default_config (λ _, sample_env) 0 2 initial_state).
Proof.
  apply (run_cycles_keeps_pins default_config (λ _, sample_env) 2 0%nat initial_state).
  - exact pins_known_initial.
  - intros key p Hp. cbn in Hp. by rewrite lookup_empty in Hp.
Defined.

(** What those two rounds leave pinned, and the cross messages they sent:
    none, the indicator having no value on two candles. *)
Example run_two_rounds :
  map_to_list
    (pinned_exchange (run_cycles default_config (λ _, sample_env) 0 2 initial_state))
  ≡ₚ [(("BTC/USDT", "5m"), "kucoin"); (("BTC/USDT", "15m"), "kucoin");
      (("BTC/USDT", "1h"), "kucoin")]
  ∧ count_calls is_send
      (calls (run_cycles default_config (λ _, sample_env) 0 2 initial_state))
    = 0%nat.
Proof.
  split; [| vm_compute; reflexivity].
  apply (bool_decide_unpack _). vm_compute. exact I.
Qed.

(** ** One message per step *)

(** [SFcompare] is the order of the ranks. *)
Lemma sf_compare_rank a b ra rb :
  sf_rank a = Some ra → sf_rank b = Some rb →
  match SpecFloat.SFcompare a b with
  | Some Lt => rank_lt ra rb
  | Some Eq => ra = rb
  | Some Gt => rank_lt rb ra
  | None => False
  end.
Proof.
  unfold rank_lt.
  destruct a as [sa | sa | | sa ma ea], b as [sb | sb | | sb mb eb];
    try destruct sa; try destruct sb; cbn;
    intros [= <-] [= <-]; cbn; try lia; try done.
  - change (Pos.compare_cont Eq ma mb) with (Pos.compare ma mb).
    destruct (Z.compare_spec ea eb), (Pos.compare_spec ma mb); cbn; try lia.
    subst. done.
  - change (Pos.compare_cont Eq ma mb) with (Pos.compare ma mb).
    destruct (Z.compare_spec ea eb), (Pos.compare_spec ma mb); cbn; try lia.
    subst. done.
Qed.

Lemma sf_rank_None_compare a b :
  sf_rank a = None ∨ sf_rank b = None → SpecFloat.SFcompare a b = None.
Proof.
  destruct a as [sa | sa | | sa ma ea], b as [sb | sb | | sb mb eb];
    try destruct sa; try destruct sb; cbn; intros [? | ?]; done.
Qed.

Lemma float_lt_rank x y :
  float_lt x y = true →
  ∃ rx ry, sf_rank (FloatOps.Prim2SF x) = Some rx ∧ sf_rank (FloatOps.Prim2SF y) = Some ry
           ∧ rank_lt rx ry.
Proof.
  unfold float_lt. rewrite FloatAxioms.ltb_spec. unfold SpecFloat.SFltb.
  destruct (sf_rank (FloatOps.Prim2SF x)) as [rx|] eqn:Hx;
    [| by rewrite sf_rank_None_compare by (by left)].
  destruct (sf_rank (FloatOps.Prim2SF y)) as [ry|] eqn:Hy;
    [| by rewrite sf_rank_None_compare by (by right)].
  pose proof (sf_compare_rank _ _ _ _ Hx Hy) as Hcmp.
  destruct (SpecFloat.SFcompare (FloatOps.Prim2SF x) (FloatOps.Prim2SF y)) as [[| |]|]; try done.
  intros _. by exists rx, ry.
Qed.

Lemma float_le_rank x y :
  float_le x y = true →
  ∃ rx ry, sf_rank (FloatOps.Prim2SF x) = Some rx ∧ sf_rank (FloatOps.Prim2SF y) = Some ry
           ∧ rank_le rx ry.
Proof.
  unfold float_le. rewrite FloatAxioms.leb_spec. unfold SpecFloat.SFleb.
  destruct (sf_rank (FloatOps.Prim2SF x)) as [rx|] eqn:Hx;
    [| by rewrite sf_rank_None_compare by (by left)].
  destruct (sf_rank (FloatOps.Prim2SF y)) as [ry|] eqn:Hy;
    [| by rewrite sf_rank_None_compare by (by right)].
  pose proof (sf_compare_rank _ _ _ _ Hx Hy) as Hcmp.
  destruct (SpecFloat.SFcompare (FloatOps.Prim2SF x) (FloatOps.Prim2SF y)) as [[| |]|]; try done;
    intros _; exists rx, ry; (split; [done |]); (split; [done |]).
  - by right.
  - by left.
Qed.

(** No pair crosses both thresholds, whatever the thresholds are:
    [prev > low >= curr >= high > prev] cannot be. *)
Lemma no_double_cross (low high prev curr : float) :
  float_gt prev low = true → float_le curr low = true →
  float_lt prev high = true → float_ge curr high = true →
  False.
Proof.
  intros Hgt Hle Hlt Hge.
  apply (float_lt_rank low prev) in Hgt as (rl & rp & Hl & Hp & Hlp).
  apply float_le_rank in Hle as (rc & rl' & Hc & Hl' & Hcl).
  apply float_lt_rank in Hlt as (rp' & rh & Hp' & Hh & Hph).
  apply (float_le_rank high curr) in Hge as (rh' & rc' & Hh' & Hc' & Hhc).
  assert (rl' = rl) as -> by congruence. assert (rp' = rp) as -> by congruence.
  assert (rh' = rh) as -> by congruence. assert (rc' = rc) as -> by congruence.
  destruct rl as [[l1 l2] l3], rp as [[p1 p2] p3],
    rh as [[h1 h2] h3], rc as [[c1 c2] c3].
  unfold rank_le, rank_lt in *. cbn in *.
  destruct Hcl as [Hcl | [= -> -> ->]], Hhc as [Hhc | [= -> -> ->]]; lia.
Qed.

(** X12: a cross-detection step sends at most one message.  The downward
    and the upward message never go out together, whatever the thresholds
    and the pair, [RSI_LOW] above [RSI_HIGH] and NaN included. *)
Theorem cross_detection_one_message cfg st ex_name market_symbol tf prev curr :
  let cs := calls_since st (cross_detection cfg st ex_name market_symbol tf prev curr) in
  (length cs ≤ 1)%nat
  ∧ ¬ (Send (MsgCrossBelow market_symbol tf curr ex_name) ∈ cs
       ∧ Send (MsgCrossAbove market_symbol tf curr ex_name) ∈ cs).
Proof.
  intros cs.
  assert (Hcs : cs = [] ∨ cs = cross_calls cfg ex_name market_symbol tf prev curr).
  { subst cs.
    destruct (last_state st !! series_key ex_name market_symbol tf) as [v|] eqn:Hkey.
    - right.
      destruct (cross_detection_later cfg st ex_name market_symbol tf prev curr)
        as [Hcalls _]; [by eexists |].
      by apply calls_since_app.
    - left. rewrite cross_detection_first by done. by apply calls_since_same. }
  destruct Hcs as [-> | ->].
  - split; [cbn; lia |]. intros [Hin _]. by apply elem_of_nil in Hin.
  - assert (Hlen : (length (cross_calls cfg ex_name market_symbol tf prev curr) ≤ 1)%nat).
    { unfold cross_calls.
      destruct (float_gt prev (RSI_LOW cfg) && float_le curr (RSI_LOW cfg)) eqn:Hlow;
        destruct (float_lt prev (RSI_HIGH cfg) && float_ge curr (RSI_HIGH cfg))
          eqn:Hhigh; cbn; try lia.
      apply andb_true_iff in Hlow as [Hgt Hle].
      apply andb_true_iff in Hhigh as [Hlt Hge].
      exfalso. exact (no_double_cross _ _ _ _ Hgt Hle Hlt Hge). }
    split; [done |]. intros [Hbelow Habove].
    destruct (cross_calls cfg ex_name market_symbol tf prev curr) as [|c [|c' cs']];
      cbn in Hlen; [by apply elem_of_nil in Hbelow | | lia].
    apply list_elem_of_singleton in Hbelow, Habove. congruence.
Qed.

(** ** What a fetch returns and what it leaves *)

Lemma try_body_returns env st ex_name base_symbol timeframe limit st1
    winner market_symbol candles :
  try_body env st ex_name base_symbol timeframe limit
  = (st1, inr (winner, market_symbol, candles)) →
  winner = ex_name
  ∧ perp_symbol_cache st1 !! (ex_id ex_name, base_symbol) = Some market_symbol
  ∧ fetch_ohlcv env (ex_id ex_name) market_symbol timeframe limit = inr candles.
Proof.
  unfold try_body.
  destruct (find_perp_market_symbol env st (ex_id ex_name) base_symbol)
    as [st0 [e | m]] eqn:Hfind; [done |].
  apply find_perp_market_symbol_cached in Hfind.
  destruct (fetch_ohlcv env (ex_id ex_name) m timeframe limit) as [e | cs] eqn:Hfetch;
    [done |].
  intros [= <- <- <- <-]. split; [done |]. split; [| done].
  cbn. destruct (pinned_exchange st0 !! (base_symbol, timeframe)) as [p|]; [| done].
  by destruct (negb (String.eqb p "") && negb (String.eqb p ex_name)).
Qed.

Lemma fetch_loop_returns cfg env base_symbol timeframe limit order :
  ∀ st tried last_err st' winner market_symbol candles,
    fetch_loop cfg env base_symbol timeframe limit order st tried last_err
    = (st', inr (winner, market_symbol, candles)) →
    winner ∈ order
    ∧ perp_symbol_cache st' !! (ex_id winner, base_symbol) = Some market_symbol
    ∧ fetch_ohlcv env (ex_id winner) market_symbol timeframe limit = inr candles.
Proof.
  induction order as [|x xs IH];
    intros st tried last_err st' winner market_symbol candles; cbn [fetch_loop];
    [done |].
  destruct (try_body env st x base_symbol timeframe limit) as [st1 [e | r]] eqn:Htry.
  - intros Hloop. apply IH in Hloop as (? & ? & ?). split; [by right | done].
  - intros [= <- ->]. apply try_body_returns in Htry as (-> & ? & ?).
    split; [by left | done].
Qed.

(** X13: what a successful fetch returns agrees with what it leaves behind.
    The source returned is in [EXCHANGES] and is the pin of the pair; the
    market symbol returned is the cache entry of that source for the base
    symbol; the candles are the answer of that source for that symbol. *)
Theorem fetch_result_consistent cfg env st base_symbol timeframe limit st'
    winner market_symbol candles :
  fetch_ohlcv_pinned cfg env st base_symbol timeframe limit
  = (st', inr (winner, market_symbol, candles)) →
  winner ∈ EXCHANGES
  ∧ pinned_exchange st' !! (base_symbol, timeframe) = Some winner
  ∧ perp_symbol_cache st' !! (ex_id winner, base_symbol) = Some market_symbol
  ∧ fetch_ohlcv env (ex_id winner) market_symbol timeframe limit = inr candles.
Proof.
  intros Hfetch.
  destruct (fetch_success_pin _ _ _ _ _ _ _ _ _ _ Hfetch) as [Hknown Hpin].
  rewrite fetch_ohlcv_pinned_unfold in Hfetch.
  apply fetch_loop_returns in Hfetch as (_ & Hcache & Hcandles).
  split; [done |]. split; [| done]. rewrite Hpin. apply lookup_insert_eq.
Qed.

Lemma fetch_result_consistent_witness :
  "kucoin" ∈ EXCHANGES
  ∧ pinned_exchange
      (fetch_ohlcv_pinned default_config sample_env initial_state
         "BTC/USDT" "5m" 100).1 !! ("BTC/USDT", "5m") = Some "kucoin"
  ∧ perp_symbol_cache
      (fetch_ohlcv_pinned default_config sample_env initial_state
         "BTC/USDT" "5m" 100).1 !! (ex_id "kucoin", "BTC/USDT")
    = Some "BTC/USDT:USDT"
  ∧ fetch_ohlcv sample_env (ex_id "kucoin") "BTC/USDT:USDT" "5m" 100
    = inr two_candles.
Proof.
  apply (fetch_result_consistent default_config sample_env initial_state
           "BTC/USDT" "5m" 100).
  vm_compute. reflexivity.
Defined.
